(** * ConstantEvaluator: compile-time constant evaluation

    A shallow embedding of [ConstantEvaluator.cpp] (namespace [slang]).  The
    evaluator is a recursive interpreter over a bound expression tree.  It
    owns a root frame and a pointer to the current frame; [evaluateCall]
    creates one more frame per call.  Evaluation is modelled as explicit
    state passing in an error monad: a C++ assertion failure, an unreachable
    switch arm or a bad access aborts the evaluation. *)

From stdpp Require Import gmap strings list fin_maps.


(** ** The four-state primitive *)

(** Modelled from the spec: [logic_t], the single four-state bit of the
    integer primitive (its header is not part of the sources): one of
    0, 1, X (unknown) and Z (high impedance). *)
Inductive logic_t : Type := L0 | L1 | LX | LZ.

#[global] Instance logic_t_eq_dec : EqDecision logic_t.
Proof. solve_decision. Defined.

Definition isUnknown (b : logic_t) : bool :=
  match b with LX | LZ => true | _ => false end.

(** Modelled from the spec: [logic_t::operator!], the complement of a
    single bit; an unknown bit stays unknown. *)
Definition logic_not (b : logic_t) : logic_t :=
  match b with L0 => L1 | L1 => L0 | _ => LX end.

(** Modelled from the spec: the conversion [(logic_t)b] of a host boolean. *)
Definition logic_of_bool (b : bool) : logic_t := if b then L1 else L0.

(** Modelled from the spec: the conversion [(bool)l], the collapse of a
    four-state truth value to a definite boolean; only a strict 1 is true. *)
Definition bool_of_logic (l : logic_t) : bool :=
  match l with L1 => true | _ => false end.

(** The operations the evaluator consumes from the arbitrary-width
    four-state integer [SVInt].  The integer is not part of the sources and
    is a black box for the evaluator, so the engine below takes it as a
    parameter, through this interface. *)
Class SVIntOps (SVInt : Type) : Type := {
  sv_neg : SVInt → SVInt;                  (* -v *)
  sv_not : SVInt → SVInt;                  (* ~v *)
  reductionAnd : SVInt → logic_t;
  reductionOr : SVInt → logic_t;
  reductionXor : SVInt → logic_t;
  sv_lnot : SVInt → logic_t;               (* !v *)
  sv_add : SVInt → SVInt → SVInt;          (* l + r *)
  sv_sub : SVInt → SVInt → SVInt;          (* l - r *)
  sv_mul : SVInt → SVInt → SVInt;          (* l * r *)
  sv_div : SVInt → SVInt → SVInt;          (* l / r *)
  sv_mod : SVInt → SVInt → SVInt;          (* l % r *)
  sv_and : SVInt → SVInt → SVInt;          (* l & r *)
  sv_or : SVInt → SVInt → SVInt;           (* l | r *)
  sv_xor : SVInt → SVInt → SVInt;          (* l ^ r *)
  sv_xnor : SVInt → SVInt → SVInt;         (* l.xnor(r) *)
  sv_eq : SVInt → SVInt → logic_t;         (* l == r *)
  sv_ne : SVInt → SVInt → logic_t;         (* l != r *)
  sv_ge : SVInt → SVInt → logic_t;         (* l >= r *)
  sv_gt : SVInt → SVInt → logic_t;         (* l > r *)
  sv_le : SVInt → SVInt → logic_t;         (* l <= r *)
  sv_lt : SVInt → SVInt → logic_t;         (* l < r *)
  exactlyEqual : SVInt → SVInt → bool;     (* exactlyEqual(l, r) *)
  sv_of_logic : logic_t → SVInt;           (* SVInt(logic_t) *)
  sv_to_logic : SVInt → logic_t;           (* (logic_t)v *)
}.

(** ** Values, results and trees *)

(** Modelled from the spec: [ConstantValue], whose declaration is not part
    of the sources: either Empty (what [nullptr] converts to) or an Integer
    that carries a four-state integer. *)
Inductive ConstantValue (SVInt : Type) : Type :=
| Empty
| Integer (v : SVInt).
Arguments Empty {SVInt}.
Arguments Integer {SVInt} v.

(** [explicit operator bool] of a [ConstantValue]. *)
Definition cv_bool {SVInt} (cv : ConstantValue SVInt) : bool :=
  match cv with Empty => false | Integer _ => true end.

(** Modelled from the spec: the fatal failures.  The macros [ASSERT] and
    [DEFAULT_UNREACHABLE] are not part of the sources; a failed assertion, an
    unreachable switch arm and a bad access abort the evaluation.  The
    constructors tell the sites apart. *)
Inductive Fault : Type :=
| MultipleTemporaries    (* ASSERT(!result, ...) in createTemporary *)
| UnboundVariable        (* ASSERT(val) in evaluateVariable *)
| DefaultUnreachable     (* DEFAULT_UNREACHABLE *)
| EmptyInteger           (* .integer() of a value that holds no integer *)
| NullPointer            (* dereference of a null frame or subroutine *)
| OutOfRange             (* element access past the end, dead frame *).

Inductive Result (A : Type) : Type :=
| Ok (a : A)
| Abort (f : Fault)
| OutOfFuel.
Arguments Ok {A} a.
Arguments Abort {A} f.
Arguments OutOfFuel {A}.

Definition bind {A B} (m : Result A) (k : A → Result B) : Result B :=
  match m with
  | Ok a => k a
  | Abort f => Abort f
  | OutOfFuel => OutOfFuel
  end.

Notation "'do' p <- m ; k" := (bind m (fun p => k))
  (at level 10, p pattern, m at level 100, k at level 200,
   format "'[v' 'do'  p  <-  m ; '/' k ']'").

(** Modelled from the spec: [ConstantValue::integer()].  A value is tagged
    Empty or Integer, and only the latter carries an integer. *)
Definition integer {SVInt} (cv : ConstantValue SVInt) : Result SVInt :=
  match cv with
  | Integer v => Ok v
  | Empty => Abort EmptyInteger
  end.

(** Declaration symbols are map keys only. *)
Abbreviation Symbol := string (only parsing).

(** Modelled from the spec: the enumeration [SyntaxKind], restricted to the
    operator kinds that the evaluator names in its switches and to the shift
    kinds that it leaves unimplemented. *)
Inductive SyntaxKind : Type :=
| UnaryPlusExpression | UnaryMinusExpression | UnaryBitwiseNotExpression
| UnaryBitwiseAndExpression | UnaryBitwiseOrExpression
| UnaryBitwiseXorExpression | UnaryBitwiseNandExpression
| UnaryBitwiseNorExpression | UnaryBitwiseXnorExpression
| UnaryLogicalNotExpression
| AddExpression | SubtractExpression | MultiplyExpression
| DivideExpression | ModExpression
| BinaryAndExpression | BinaryOrExpression | BinaryXorExpression
| BinaryXnorExpression
| EqualityExpression | InequalityExpression
| CaseEqualityExpression | CaseInequalityExpression
| GreaterThanEqualExpression | GreaterThanExpression
| LessThanEqualExpression | LessThanExpression
| LogicalShiftLeftExpression | LogicalShiftRightExpression
| ArithmeticShiftLeftExpression | ArithmeticShiftRightExpression
| AssignmentExpression
| AddAssignmentExpression | SubtractAssignmentExpression
| MultiplyAssignmentExpression | DivideAssignmentExpression
| ModAssignmentExpression
| AndAssignmentExpression | OrAssignmentExpression | XorAssignmentExpression
| LogicalLeftShiftAssignmentExpression
| LogicalRightShiftAssignmentExpression
| ArithmeticLeftShiftAssignmentExpression
| ArithmeticRightShiftAssignmentExpression.

#[global] Instance SyntaxKind_eq_dec : EqDecision SyntaxKind.
Proof. solve_decision. Defined.

(** Modelled from the spec: the bound tree, declared in [SemanticModel.h],
    which is not part of the sources; one constructor for each node kind of
    the dispatch, with the fields that the source reads.  A call names its
    subroutine; the subroutine symbols live in a table, so that a body can
    call its own subroutine.  [BoundBad] is a node for which [bad()] holds,
    [BoundOther] a node of a kind that the dispatch does not list. *)
#[local] Set Warnings "-register-all".
Inductive BoundNode (SVInt : Type) : Type :=
| BoundBad (child : option (BoundNode SVInt))
| BoundLiteral (value : ConstantValue SVInt)
| BoundParameter (symbol_value : ConstantValue SVInt)
| BoundVariable (symbol : Symbol)
| BoundUnaryExpression (kind : SyntaxKind) (operand : BoundNode SVInt)
| BoundBinaryExpression (kind : SyntaxKind) (left right : BoundNode SVInt)
| BoundAssignmentExpression (kind : SyntaxKind) (left right : BoundNode SVInt)
| BoundCallExpression (subroutine : Symbol) (arguments : list (BoundNode SVInt))
| BoundStatementList (list : list (BoundNode SVInt))
| BoundReturnStatement (expr : BoundNode SVInt)
| BoundOther.
Arguments BoundBad {SVInt} child.
Arguments BoundLiteral {SVInt} value.
Arguments BoundParameter {SVInt} symbol_value.
Arguments BoundVariable {SVInt} symbol.
Arguments BoundUnaryExpression {SVInt} kind operand.
Arguments BoundBinaryExpression {SVInt} kind left right.
Arguments BoundAssignmentExpression {SVInt} kind left right.
Arguments BoundCallExpression {SVInt} subroutine arguments.
Arguments BoundStatementList {SVInt} list.
Arguments BoundReturnStatement {SVInt} expr.
Arguments BoundOther {SVInt}.

(** Modelled from the spec: a subroutine symbol, with the two members that
    [evaluateCall] reads: the formal parameters in declaration order and the
    body. *)
Record SubroutineSymbol (SVInt : Type) : Type := {
  arguments : list Symbol;
  body : BoundNode SVInt;
}.
Arguments arguments {SVInt} s.
Arguments body {SVInt} s.

(** ** Frames *)

(** Modelled from the spec: [Frame], declared in [ConstantEvaluator.h], which
    is not part of the sources: the temporaries materialised in one frame of
    the call stack, a map from symbols to values, and a pointer to the
    previous frame. *)
Record Frame (SVInt : Type) : Type := {
  temporaries : gmap Symbol (ConstantValue SVInt);
  parent : option nat;
}.
Arguments temporaries {SVInt} f.
Arguments parent {SVInt} f.
Arguments Build_Frame {SVInt} temporaries parent.

(** Modelled from the spec: the data members of the evaluator.  [frames] is
    the storage of the live [Frame] objects, addressed by position: the
    member [rootFrame] at address 0 and above it the automatic [newFrame]
    objects of the calls in progress, the latest last.  [currentFrame] is the
    member pointer of that name. *)
Record ConstantEvaluator (SVInt : Type) : Type := {
  frames : list (Frame SVInt);
  currentFrame : option nat;
}.
Arguments frames {SVInt} c.
Arguments currentFrame {SVInt} c.
Arguments Build_ConstantEvaluator {SVInt} frames currentFrame.

(** Modelled from the spec: [LValue], the storage of an lvalue: a pointer to
    a slot of some frame's map, here the address of the frame and the key. *)
Record LValue : Type := { storage : nat * Symbol }.

Section Evaluator.
Context {SVInt : Type} `{!SVIntOps SVInt}.

#[local] Abbreviation CV := (ConstantValue SVInt).
#[local] Abbreviation Node := (BoundNode SVInt).
#[local] Abbreviation CE := (ConstantEvaluator SVInt).

(** The subroutine symbols that call expressions point to. *)
Variable program : gmap Symbol (SubroutineSymbol SVInt).

(** The constructor: [currentFrame = &rootFrame]. *)
Definition initial : CE :=
  {| frames := [ {| temporaries := ∅; parent := None |} ];
     currentFrame := Some 0 |}.

(** Dereference of a frame pointer. *)
Definition frameAt (p : option nat) (s : CE) : Result (nat * Frame SVInt) :=
  match p with
  | None => Abort NullPointer
  | Some a =>
      match frames s !! a with
      | Some f => Ok (a, f)
      | None => Abort OutOfRange
      end
  end.

Definition setTemporaries (a : nat) (m : gmap Symbol CV) (s : CE) : CE :=
  {| frames := alter (λ f, {| temporaries := m; parent := parent f |}) a (frames s);
     currentFrame := currentFrame s |}.

(** [p->temporaries[key]]: the map's subscript.  It yields a reference to
    the slot of [key] and first inserts a default (Empty) value when the
    map has no slot for [key]. *)
Definition subscript (p : option nat) (key : Symbol) (s : CE)
  : Result (nat * Symbol * CE) :=
  do (a, f) <- frameAt p s;
  match temporaries f !! key with
  | Some _ => Ok (a, key, s)
  | None => Ok (a, key, setTemporaries a (<[key := Empty]> (temporaries f)) s)
  end.

(** Read and write through a reference to a slot. *)
Definition readSlot (r : nat * Symbol) (s : CE) : Result CV :=
  do (_, f) <- frameAt (Some r.1) s;
  match temporaries f !! r.2 with
  | Some v => Ok v
  | None => Abort OutOfRange
  end.

Definition writeSlot (r : nat * Symbol) (v : CV) (s : CE) : Result CE :=
  do (a, f) <- frameAt (Some r.1) s;
  Ok (setTemporaries a (<[r.2 := v]> (temporaries f)) s).

(** [LValue::store] and [LValue::load]. *)
Definition store (lvalue : LValue) (v : CV) (s : CE) : Result CE :=
  writeSlot (storage lvalue) v s.

Definition load (lvalue : LValue) (s : CE) : Result CV :=
  readSlot (storage lvalue) s.

Definition createTemporary (key : Symbol) (s : CE) : Result (nat * Symbol * CE) :=
  do (a, k, s1) <- subscript (currentFrame s) key s;
  do result <- readSlot (a, k) s1;
  if cv_bool result then Abort MultipleTemporaries else Ok (a, k, s1).

Definition evaluateLiteral (value : CV) (s : CE) : Result (CV * CE) :=
  Ok (value, s).

Definition evaluateParameter (symbol_value : CV) (s : CE) : Result (CV * CE) :=
  Ok (symbol_value, s).

Definition evaluateVariable (symbol : Symbol) (s : CE) : Result (CV * CE) :=
  do (a, k, s1) <- subscript (currentFrame s) symbol s;
  do val <- readSlot (a, k) s1;
  if cv_bool val then Ok (val, s1) else Abort UnboundVariable.

Definition evaluateLValue (expr : Node) (s : CE) : Result (option LValue * CE) :=
  match expr with
  | BoundVariable symbol =>
      do (a, k, s1) <- subscript (currentFrame s) symbol s;
      Ok (Some {| storage := (a, k) |}, s1)
  | _ => Abort DefaultUnreachable
  end.

(** The frame steps of [evaluateCall].  [Frame newFrame { currentFrame }]
    creates the new frame, above the live ones, with the current frame as
    its parent. *)
Definition withNewFrame (s : CE) : CE :=
  {| frames := frames s ++ [ {| temporaries := ∅; parent := currentFrame s |} ];
     currentFrame := currentFrame s |}.

(** [currentFrame = &newFrame]. *)
Definition enterFrame (addr : nat) (s : CE) : CE :=
  {| frames := frames s; currentFrame := Some addr |}.

(** [currentFrame = newFrame.parent], after which [newFrame] goes out of
    scope. *)
Definition leaveFrame (addr : nat) (s : CE) : Result CE :=
  do (_, f) <- frameAt (Some addr) s;
  Ok {| frames := take addr (frames s); currentFrame := parent f |}.

Section Dispatch.
(** The recursive call [evaluate(...)]. *)
Variable evaluate : Node → CE → Result (CV * CE).

Definition evaluateUnary (kind : SyntaxKind) (operand : Node) (s : CE)
  : Result (CV * CE) :=
  do (cv, s1) <- evaluate operand s;
  do v <- integer cv;
  match kind with
  | UnaryPlusExpression => Ok (Integer v, s1)
  | UnaryMinusExpression => Ok (Integer (sv_neg v), s1)
  | UnaryBitwiseNotExpression => Ok (Integer (sv_not v), s1)
  | UnaryBitwiseAndExpression => Ok (Integer (sv_of_logic (reductionAnd v)), s1)
  | UnaryBitwiseOrExpression => Ok (Integer (sv_of_logic (reductionOr v)), s1)
  | UnaryBitwiseXorExpression => Ok (Integer (sv_of_logic (reductionXor v)), s1)
  | UnaryBitwiseNandExpression =>
      Ok (Integer (sv_of_logic (logic_not (reductionAnd v))), s1)
  | UnaryBitwiseNorExpression =>
      Ok (Integer (sv_of_logic (logic_not (reductionOr v))), s1)
  | UnaryBitwiseXnorExpression =>
      Ok (Integer (sv_of_logic (logic_not (reductionXor v))), s1)
  | UnaryLogicalNotExpression => Ok (Integer (sv_of_logic (sv_lnot v)), s1)
  | _ => Abort DefaultUnreachable
  end.

Definition evaluateBinary (kind : SyntaxKind) (left right : Node) (s : CE)
  : Result (CV * CE) :=
  do (lcv, s1) <- evaluate left s;
  do l <- integer lcv;
  do (rcv, s2) <- evaluate right s1;
  do r <- integer rcv;
  match kind with
  | AddExpression => Ok (Integer (sv_add l r), s2)
  | SubtractExpression => Ok (Integer (sv_sub l r), s2)
  | MultiplyExpression => Ok (Integer (sv_mul l r), s2)
  | DivideExpression => Ok (Integer (sv_div l r), s2)
  | ModExpression => Ok (Integer (sv_mod l r), s2)
  | BinaryAndExpression => Ok (Integer (sv_and l r), s2)
  | BinaryOrExpression => Ok (Integer (sv_or l r), s2)
  | BinaryXorExpression => Ok (Integer (sv_xor l r), s2)
  | BinaryXnorExpression => Ok (Integer (sv_xnor l r), s2)
  | EqualityExpression => Ok (Integer (sv_of_logic (sv_eq l r)), s2)
  | InequalityExpression => Ok (Integer (sv_of_logic (sv_ne l r)), s2)
  | CaseEqualityExpression =>
      Ok (Integer (sv_of_logic (logic_of_bool (exactlyEqual l r))), s2)
  | CaseInequalityExpression =>
      Ok (Integer (sv_of_logic (logic_of_bool (negb (exactlyEqual l r)))), s2)
  | GreaterThanEqualExpression => Ok (Integer (sv_of_logic (sv_ge l r)), s2)
  | GreaterThanExpression => Ok (Integer (sv_of_logic (sv_gt l r)), s2)
  | LessThanEqualExpression => Ok (Integer (sv_of_logic (sv_le l r)), s2)
  | LessThanExpression => Ok (Integer (sv_of_logic (sv_lt l r)), s2)
  | _ => Abort DefaultUnreachable
  end.

(** The switch of [evaluateAssignment]: the value that each assignment
    kind stores, [None] for a kind outside the switch. *)
Definition assignedValue (kind : SyntaxKind) (rvalue : CV) (l r : SVInt)
  : option CV :=
  match kind with
  | AssignmentExpression => Some rvalue
  | AddAssignmentExpression => Some (Integer (sv_add l r))
  | SubtractAssignmentExpression => Some (Integer (sv_sub l r))
  | MultiplyAssignmentExpression => Some (Integer (sv_mul l r))
  | DivideAssignmentExpression => Some (Integer (sv_div l r))
  | ModAssignmentExpression => Some (Integer (sv_mod l r))
  | AndAssignmentExpression => Some (Integer (sv_and l r))
  | OrAssignmentExpression => Some (Integer (sv_or l r))
  | XorAssignmentExpression => Some (Integer (sv_xor l r))
  | _ => None
  end.

Definition evaluateAssignment (kind : SyntaxKind) (left right : Node) (s : CE)
  : Result (CV * CE) :=
  do (resolved, s0) <- evaluateLValue left s;
  match resolved with
  | None => Ok (Empty, s0)
  | Some lvalue =>
      do (rvalue, s1) <- evaluate right s0;
      do (lcv, s2) <- evaluate left s1;
      do l <- integer lcv;
      do r <- integer rvalue;
      match assignedValue kind rvalue l r with
      | Some v =>
          do s3 <- store lvalue v s2;
          do result <- load lvalue s3;
          Ok (result, s3)
      | None => Abort DefaultUnreachable
      end
  end.

(** The argument loop of [evaluateCall]: for each formal parameter [i],
    in order, [newFrame.temporaries[formal_i] = evaluate(actual_i)],
    where [newFrame] lives at address [addr].  The counter of the source is
    a [uint32_t]; a list of formals is shorter than its range. *)
Fixpoint bindArguments (addr : nat) (formals : list Symbol) (i : nat)
    (actuals : list Node) (s : CE) : Result CE :=
  match formals with
  | [] => Ok s
  | formal :: rest =>
      match actuals !! i with
      | None => Abort OutOfRange
      | Some actual =>
          do (v, s1) <- evaluate actual s;
          do s2 <- writeSlot (addr, formal) v s1;
          bindArguments addr rest (S i) actuals s2
      end
  end.

Definition evaluateCall (subroutine : Symbol) (actuals : list Node) (s : CE)
  : Result (CV * CE) :=
  let addr := length (frames s) in
  match program !! subroutine with
  | None => Abort NullPointer
  | Some sub =>
      do s1 <- bindArguments addr (arguments sub) 0 actuals (withNewFrame s);
      do (result, s3) <- evaluate (body sub) (enterFrame addr s1);
      do s4 <- leaveFrame addr s3;
      Ok (result, s4)
  end.

Definition evaluateStatementList (list : list Node) (s : CE)
  : Result (CV * CE) :=
  match list with
  | item :: _ => evaluate item s
  | [] => Ok (Empty, s)
  end.

Definition evaluateReturn (expr : Node) (s : CE) : Result (CV * CE) :=
  evaluate expr s.

(** The body of [evaluate]: the [bad()] test, then the switch on the
    node kind. *)
Definition dispatch (tree : Node) (s : CE) : Result (CV * CE) :=
  match tree with
  | BoundBad _ => Ok (Empty, s)
  | BoundLiteral value => evaluateLiteral value s
  | BoundParameter symbol_value => evaluateParameter symbol_value s
  | BoundVariable symbol => evaluateVariable symbol s
  | BoundUnaryExpression kind operand => evaluateUnary kind operand s
  | BoundBinaryExpression kind lhs rhs => evaluateBinary kind lhs rhs s
  | BoundAssignmentExpression kind lhs rhs =>
      evaluateAssignment kind lhs rhs s
  | BoundCallExpression subroutine actuals => evaluateCall subroutine actuals s
  | BoundStatementList list => evaluateStatementList list s
  | BoundReturnStatement expr => evaluateReturn expr s
  | BoundOther => Abort DefaultUnreachable
  end.
End Dispatch.

(** [evaluate], with the depth of the recursion bounded by [fuel]. *)
Fixpoint evaluate (fuel : nat) (tree : Node) (s : CE) : Result (CV * CE) :=
  match fuel with
  | 0 => OutOfFuel
  | S n => dispatch (evaluate n) tree s
  end.

Definition evaluateBool (fuel : nat) (tree : Node) (s : CE) : Result (bool * CE) :=
  do (cv, s1) <- evaluate fuel tree s;
  if cv_bool cv then
    do v <- integer cv;
    Ok (bool_of_logic (sv_to_logic v), s1)
  else Ok (false, s1).

(** *** Vocabulary of the properties *)

(** The current frame pointer points to a live frame. *)
Definition wellFormed (s : CE) : Prop :=
  ∃ c, currentFrame s = Some c ∧ c < length (frames s).

Definition temporariesAt (a : nat) (s : CE) : gmap Symbol CV :=
  from_option temporaries ∅ (frames s !! a).

Definition currentTemporaries (s : CE) : gmap Symbol CV :=
  from_option (λ c, temporariesAt c s) ∅ (currentFrame s).

(** What the current frame holds for a symbol; a symbol without a slot
    reads as Empty, as the map's subscript would give. *)
Definition valueOf (s : CE) (x : Symbol) : CV :=
  default Empty (currentTemporaries s !! x).

(** A symbol is bound when the current frame holds a value for it, which
    is what the assertions of [createTemporary] and [evaluateVariable]
    test. *)
Definition isBound (s : CE) (x : Symbol) : bool := cv_bool (valueOf s x).

(** How a state may change: the frame pointer, the number of live frames
    and every parent link stay; only the frames at the addresses in
    [touch] may hold other temporaries; the set of bound symbols of the
    current frame stays. *)
Record evolves (touch : nat → Prop) (s s' : CE) : Prop := {
  evolves_current : currentFrame s' = currentFrame s;
  evolves_length : length (frames s') = length (frames s);
  evolves_parent : ∀ a f f',
    frames s !! a = Some f → frames s' !! a = Some f' → parent f' = parent f;
  evolves_frame : ∀ a, ¬ touch a → frames s' !! a = frames s !! a;
  evolves_bound : ∀ x, isBound s' x = isBound s x;
}.

(** The addresses an evaluation may write to: the current frame only. *)
Definition current (s : CE) (a : nat) : Prop := currentFrame s = Some a.

(** The state after the subscript [currentFrame->temporaries[x]]: a frame
    without a slot for [x] gets one that holds Empty. *)
Definition materialise (x : Symbol) (s : CE) : CE :=
  match currentFrame s with
  | Some c =>
      match temporariesAt c s !! x with
      | Some _ => s
      | None => setTemporaries c (<[x := Empty]> (temporariesAt c s)) s
      end
  | None => s
  end.

(** The state after a store of [v] to the slot of [x] in the current
    frame. *)
Definition assign (x : Symbol) (v : CV) (s : CE) : CE :=
  match currentFrame s with
  | Some c => setTemporaries c (<[x := v]> (temporariesAt c s)) s
  | None => s
  end.

(** The binary operator that a compound assignment combines with. *)
Definition compoundOperator (kind : SyntaxKind) : option SyntaxKind :=
  match kind with
  | AddAssignmentExpression => Some AddExpression
  | SubtractAssignmentExpression => Some SubtractExpression
  | MultiplyAssignmentExpression => Some MultiplyExpression
  | DivideAssignmentExpression => Some DivideExpression
  | ModAssignmentExpression => Some ModExpression
  | AndAssignmentExpression => Some BinaryAndExpression
  | OrAssignmentExpression => Some BinaryOrExpression
  | XorAssignmentExpression => Some BinaryXorExpression
  | _ => None
  end.

(** A successful run of the argument loop of [evaluateCall], step by
    step, for a caller whose frame is at [c] and a new frame at [addr].
    Each step records that the argument was evaluated with the caller's
    frame current, that its outcome is the same whatever the new frame
    holds, and that its evaluation left the new frame alone; the next
    argument starts from the state the previous one left. *)
Inductive argumentsRun (ev : Node → CE → Result (CV * CE)) (c addr : nat)
    (actuals : list Node) : list Symbol → nat → CE → CE → Prop :=
| run_done i s : argumentsRun ev c addr actuals [] i s s
| run_step formal rest i actual v s t t' u :
    actuals !! i = Some actual →
    currentFrame s = Some c →
    ev actual s = Ok (v, t) →
    (∀ m, ev actual (setTemporaries addr m s) = Ok (v, setTemporaries addr m t)) →
    frames t !! addr = frames s !! addr →
    writeSlot (addr, formal) v t = Ok t' →
    argumentsRun ev c addr actuals rest (S i) t' u →
    argumentsRun ev c addr actuals (formal :: rest) i s u.

(** Map over the state of a result. *)
Definition onState {A} (g : CE → CE) (r : Result (A * CE)) : Result (A * CE) :=
  match r with
  | Ok (v, s) => Ok (v, g s)
  | Abort f => Abort f
  | OutOfFuel => OutOfFuel
  end.

Definition onResult (g : CE → CE) (r : Result CE) : Result CE :=
  match r with
  | Ok s => Ok (g s)
  | Abort f => Abort f
  | OutOfFuel => OutOfFuel
  end.

End Evaluator.

Arguments setTemporaries : simpl never.

(** ** A reference four-state integer *)

Module FourState.

(** Modelled from the spec: the four-state integer primitive [SVInt],
    whose sources are not part of the evaluator.  A value is its vector of
    four-state bits, least significant bit first; the narrower operand of
    a binary operation is zero-extended.  Arithmetic and the tri-state
    comparisons yield unknown as soon as an operand holds an X or Z bit;
    case equality matches the bit patterns, X and Z included. *)
Definition SVInt : Type := list logic_t.

Definition hasUnknown (v : SVInt) : bool := existsb isUnknown v.

Fixpoint toZ (v : SVInt) : Z :=
  match v with
  | [] => 0
  | b :: r => (if decide (b = L1) then 1 else 0) + 2 * toZ r
  end.

Fixpoint ofZ (w : nat) (z : Z) : SVInt :=
  match w with
  | O => []
  | S w' => (if Z.odd z then L1 else L0) :: ofZ w' (Z.div2 z)
  end.

Definition extend (w : nat) (v : SVInt) : SVInt :=
  v ++ replicate (w - length v) L0.

Definition commonWidth (a b : SVInt) : nat := max (length a) (length b).

Definition allX (w : nat) : SVInt := replicate w LX.

Definition arith (f : Z → Z → Z) (a b : SVInt) : SVInt :=
  if hasUnknown a || hasUnknown b then allX (commonWidth a b)
  else ofZ (commonWidth a b) (f (toZ a) (toZ b)).

Definition divide (f : Z → Z → Z) (a b : SVInt) : SVInt :=
  if hasUnknown a || hasUnknown b || (toZ b =? 0)%Z then allX (commonWidth a b)
  else ofZ (commonWidth a b) (f (toZ a) (toZ b)).

Definition compare (f : Z → Z → bool) (a b : SVInt) : logic_t :=
  if hasUnknown a || hasUnknown b then LX
  else logic_of_bool (f (toZ a) (toZ b)).

Definition bitAnd (x y : logic_t) : logic_t :=
  match x, y with
  | L0, _ | _, L0 => L0
  | L1, L1 => L1
  | _, _ => LX
  end.

Definition bitOr (x y : logic_t) : logic_t :=
  match x, y with
  | L1, _ | _, L1 => L1
  | L0, L0 => L0
  | _, _ => LX
  end.

Definition bitXor (x y : logic_t) : logic_t :=
  match x, y with
  | L0, L0 | L1, L1 => L0
  | L0, L1 | L1, L0 => L1
  | _, _ => LX
  end.

Definition bitwise (f : logic_t → logic_t → logic_t) (a b : SVInt) : SVInt :=
  zip_with f (extend (commonWidth a b) a) (extend (commonWidth a b) b).

(** Modelled from the spec: the conversion [(logic_t)v], the truth of a
    value: unknown when a bit is X or Z, else whether the value is not
    zero. *)
Definition toLogic (v : SVInt) : logic_t :=
  if hasUnknown v then LX else logic_of_bool (negb (toZ v =? 0)%Z).

(** Modelled from the spec: [operator==], logical equality: the tri-state
    comparison of the values, unknown when an operand holds an X or Z bit. *)
Definition logicalEq (a b : SVInt) : logic_t := compare Z.eqb a b.

(** Modelled from the spec: [exactlyEqual], case equality: the exact match
    of the bit patterns, X and Z positions included; always definite. *)
Definition caseEq (a b : SVInt) : bool :=
  bool_decide (extend (commonWidth a b) a = extend (commonWidth a b) b).

#[export] Instance ops : SVIntOps SVInt := {|
  sv_neg v := arith Z.sub (ofZ (length v) 0) v;
  sv_not v := map logic_not v;
  reductionAnd v := foldr bitAnd L1 v;
  reductionOr v := foldr bitOr L0 v;
  reductionXor v := foldr bitXor L0 v;
  sv_lnot v := logic_not (toLogic v);
  sv_add := arith Z.add;
  sv_sub := arith Z.sub;
  sv_mul := arith Z.mul;
  sv_div := divide Z.quot;
  sv_mod := divide Z.rem;
  sv_and := bitwise bitAnd;
  sv_or := bitwise bitOr;
  sv_xor := bitwise bitXor;
  sv_xnor a b := map logic_not (bitwise bitXor a b);
  sv_eq := logicalEq;
  sv_ne a b := logic_not (logicalEq a b);
  sv_ge := compare Z.geb;
  sv_gt := compare Z.gtb;
  sv_le := compare Z.leb;
  sv_lt := compare Z.ltb;
  exactlyEqual := caseEq;
  sv_of_logic b := [b];
  sv_to_logic := toLogic;
|}.

(** A 32-bit literal. *)
Definition lit (z : Z) : ConstantValue SVInt := Integer (ofZ 32 z).

(** The evaluator as constructed. *)
Definition root : ConstantEvaluator SVInt := initial.

(** The root frame with [x] bound to a 32-bit value. *)
Definition bound (x : Symbol) (z : Z) : ConstantEvaluator SVInt :=
  {| frames := [ {| temporaries := {[ x := lit z ]}; parent := None |} ];
     currentFrame := Some 0 |}.

Definition var (x : Symbol) : BoundNode SVInt := BoundVariable x.
Definition num (z : Z) : BoundNode SVInt := BoundLiteral (lit z).

(** A value with an unknown bit. *)
Definition undefined : SVInt := [LX].

(** One subroutine, [add(a, b)], whose body returns [a + b]. *)
Definition adder : gmap Symbol (SubroutineSymbol SVInt) :=
  {[ "add" :=
       {| arguments := ["a"; "b"];
          body := BoundStatementList
                    [BoundReturnStatement
                       (BoundBinaryExpression AddExpression (var "a") (var "b"))] |} ]}.

(** The state of a call of [add] from the root frame after the argument
    loop: the new frame, at address 1, holds [a] and [b]. *)
Definition adderBound (caller : gmap Symbol (ConstantValue SVInt)) (a b : Z)
  : ConstantEvaluator SVInt :=
  {| frames := [ {| temporaries := caller; parent := None |};
                 {| temporaries := {[ "a" := lit a; "b" := lit b ]};
                    parent := Some 0 |} ];
     currentFrame := Some 0 |}.

End FourState.

(** ** Trees that touch no frame *)

(** The trees whose evaluation reaches no variable, assignment or call:
    literals, parameters, invalid nodes, and the operators, return statements
    and statement lists over them.  Of a statement list only the first
    statement counts, the only one that is evaluated. *)
Fixpoint stateFree {SVInt : Type} (tree : BoundNode SVInt) : bool :=
  match tree with
  | BoundBad _ | BoundLiteral _ | BoundParameter _ => true
  | BoundUnaryExpression _ operand => stateFree operand
  | BoundBinaryExpression _ lhs rhs => stateFree lhs && stateFree rhs
  | BoundStatementList (item :: _) => stateFree item
  | BoundStatementList [] => true
  | BoundReturnStatement expr => stateFree expr
  | _ => false
  end.


(** * Properties *)

Lemma bind_Ok {A B} (m : Result A) (k : A → Result B) (b : B) :
  bind m k = Ok b → ∃ a, m = Ok a ∧ k a = Ok b.
Proof. destruct m; simpl; eauto; discriminate. Qed.

Lemma integer_Ok {SVInt} (cv : ConstantValue SVInt) (v : SVInt) :
  integer cv = Ok v → cv = Integer v.
Proof. destruct cv; simpl; congruence. Qed.

Lemma cv_bool_true {SVInt} (cv : ConstantValue SVInt) :
  cv_bool cv = true → ∃ v, cv = Integer v.
Proof. destruct cv; simpl; eauto; discriminate. Qed.

(** Take the first step off a successful sequence of binds. *)
Tactic Notation "unbind" hyp(H) "as" simple_intropattern(p) ident(E) :=
  apply bind_Ok in H as (p & E & H); simpl in H.

Section Properties.
Context {SVInt : Type} `{!SVIntOps SVInt}.
Variable program : gmap Symbol (SubroutineSymbol SVInt).

#[local] Abbreviation CV := (ConstantValue SVInt).
#[local] Abbreviation Node := (BoundNode SVInt).
#[local] Abbreviation CE := (ConstantEvaluator SVInt).

Implicit Types (s : CE) (x y : Symbol) (a c addr : nat) (v : CV).

(** *** Frames and slots *)

Lemma frameAt_Ok p s a (f : Frame SVInt) :
  frameAt p s = Ok (a, f) ↔ p = Some a ∧ frames s !! a = Some f.
Proof.
  unfold frameAt. destruct p as [b|]; [|split; [discriminate|intros [? _]; discriminate]].
  destruct (frames s !! b) eqn:E; split; intros H; try discriminate.
  - by inversion H; subst.
  - destruct H as [[= ->] ?]; congruence.
  - destruct H as [[= ->] ?]; congruence.
Qed.

Lemma lookup_setTemporaries_eq a m s (f : Frame SVInt) :
  frames s !! a = Some f →
  frames (setTemporaries a m s) !! a
  = Some {| temporaries := m; parent := parent f |}.
Proof. intros E. unfold setTemporaries; simpl. by rewrite list_lookup_alter_eq, E. Qed.

Lemma lookup_setTemporaries_ne a b m s :
  a ≠ b → frames (setTemporaries a m s) !! b = frames s !! b.
Proof. intros. unfold setTemporaries; simpl. by rewrite list_lookup_alter_ne. Qed.

Lemma length_setTemporaries a m s :
  length (frames (setTemporaries a m s)) = length (frames s).
Proof. unfold setTemporaries; simpl. apply length_alter. Qed.

Lemma setTemporaries_id a s (f : Frame SVInt) :
  frames s !! a = Some f → setTemporaries a (temporaries f) s = s.
Proof.
  intros E. destruct s as [fs cf]. unfold setTemporaries; simpl in *. f_equal.
  apply list_eq. intros i. destruct (decide (a = i)) as [->|].
  - rewrite list_lookup_alter_eq, E. simpl. by destruct f.
  - by rewrite list_lookup_alter_ne.
Qed.

Lemma wellFormed_frame s :
  wellFormed s → ∃ c (f : Frame SVInt), currentFrame s = Some c ∧ frames s !! c = Some f.
Proof.
  intros (c & Hc & Hlt). apply lookup_lt_is_Some_2 in Hlt as [f Hf]. eauto.
Qed.

Lemma valueOf_lookup s c (f : Frame SVInt) x :
  currentFrame s = Some c → frames s !! c = Some f →
  valueOf s x = default Empty (temporaries f !! x).
Proof.
  intros Hc Hf. unfold valueOf, currentTemporaries, temporariesAt.
  by rewrite Hc; simpl; rewrite Hf.
Qed.

(** *** The relation [evolves] *)

Lemma evolves_refl (touch : nat → Prop) s : evolves touch s s.
Proof. split; intros; congruence. Qed.

Lemma evolves_mono (T T' : nat → Prop) s s' :
  (∀ a, T a → T' a) → evolves T s s' → evolves T' s s'.
Proof. intros HT [? ? ? Hf ?]. split; auto. Qed.

Lemma evolves_trans (T : nat → Prop) s s' s'' :
  evolves T s s' → evolves T s' s'' → evolves T s s''.
Proof.
  intros [C1 L1' P1 F1 B1] [C2 L2' P2 F2 B2]. split.
  - congruence.
  - congruence.
  - intros a f f'' Hf Hf''.
    assert (is_Some (frames s' !! a)) as [f' Hf'].
    { apply lookup_lt_is_Some. rewrite L1'. apply lookup_lt_is_Some. eauto. }
    rewrite (P2 a f' f''), (P1 a f f'); auto.
  - intros a Ha. rewrite F2, F1; auto.
  - intros x. rewrite B2, B1; auto.
Qed.

Lemma evolves_wellFormed (T : nat → Prop) s s' :
  evolves T s s' → wellFormed s → wellFormed s'.
Proof.
  intros [C L _ _ _] (c & Hc & Hlt). exists c. rewrite C, L. auto.
Qed.

(** *** Slots of the current frame *)

Lemma valueOf_setTemporaries s c (f : Frame SVInt) m x :
  currentFrame s = Some c → frames s !! c = Some f →
  valueOf (setTemporaries c m s) x = default Empty (m !! x).
Proof.
  intros Hc Hf.
  erewrite valueOf_lookup; [|exact Hc|by apply lookup_setTemporaries_eq]. done.
Qed.

Lemma valueOf_setTemporaries_ne s a m x :
  currentFrame s ≠ Some a → valueOf (setTemporaries a m s) x = valueOf s x.
Proof.
  intros Hne. unfold valueOf, currentTemporaries, temporariesAt.
  change (currentFrame (setTemporaries a m s)) with (currentFrame s).
  destruct (currentFrame s) as [c|]; [|done]. cbv [from_option].
  rewrite lookup_setTemporaries_ne; [done|congruence].
Qed.

(** Writing the current frame keeps the state in shape as long as no
    symbol changes between bound and unbound. *)
Lemma setTemporaries_current_evolves s c (f : Frame SVInt) m :
  currentFrame s = Some c → frames s !! c = Some f →
  (∀ x, cv_bool (default Empty (m !! x))
        = cv_bool (default Empty (temporaries f !! x))) →
  evolves (current s) s (setTemporaries c m s).
Proof.
  intros Hc Hf Hm. split.
  - done.
  - apply length_setTemporaries.
  - intros a g g' Hg Hg'. destruct (decide (c = a)) as [<-|Hne].
    + rewrite (lookup_setTemporaries_eq _ _ _ f Hf) in Hg'.
      inversion Hg'; subst; simpl. congruence.
    + rewrite lookup_setTemporaries_ne in Hg' by done. congruence.
  - intros a Ha. apply lookup_setTemporaries_ne. intros ->. by apply Ha.
  - intros x. unfold isBound.
    by rewrite (valueOf_setTemporaries s c f), (valueOf_lookup s c f), Hm.
Qed.

(** Writing another frame than the current one is invisible from the
    current frame. *)
Lemma setTemporaries_other_evolves s a m :
  currentFrame s ≠ Some a → evolves (eq a) s (setTemporaries a m s).
Proof.
  intros Hne. split.
  - done.
  - apply length_setTemporaries.
  - intros b g g' Hg Hg'. destruct (decide (a = b)) as [<-|Hab].
    + rewrite (lookup_setTemporaries_eq _ _ _ g Hg) in Hg'.
      by inversion Hg'.
    + rewrite lookup_setTemporaries_ne in Hg' by done. congruence.
  - intros b Hb. apply lookup_setTemporaries_ne. done.
  - intros x. unfold isBound. by rewrite valueOf_setTemporaries_ne.
Qed.

Lemma subscript_current s c (f : Frame SVInt) x :
  currentFrame s = Some c → frames s !! c = Some f →
  subscript (currentFrame s) x s
  = Ok (c, x, match temporaries f !! x with
              | Some _ => s
              | None => setTemporaries c (<[x := Empty]> (temporaries f)) s
              end).
Proof.
  intros Hc Hf. unfold subscript, frameAt. rewrite Hc, Hf. simpl.
  by destruct (temporaries f !! x).
Qed.

(** The subscript at most materialises an Empty slot. *)
Lemma subscript_Ok p x s r s1 :
  subscript p x s = Ok (r, s1) →
  ∃ c (f : Frame SVInt),
    p = Some c ∧ frames s !! c = Some f ∧ r = (c, x)
    ∧ s1 = match temporaries f !! x with
           | Some _ => s
           | None => setTemporaries c (<[x := Empty]> (temporaries f)) s
           end.
Proof.
  unfold subscript. intros H. unbind H as [c f] E.
  apply frameAt_Ok in E as [-> Hf].
  exists c, f. destruct (temporaries f !! x); inversion H; subst; auto.
Qed.

Lemma subscript_valueOf s c (f : Frame SVInt) x y :
  currentFrame s = Some c → frames s !! c = Some f →
  valueOf (match temporaries f !! x with
           | Some _ => s
           | None => setTemporaries c (<[x := Empty]> (temporaries f)) s
           end) y = valueOf s y.
Proof.
  intros Hc Hf. destruct (temporaries f !! x) eqn:Ex; [done|].
  rewrite (valueOf_setTemporaries s c f), (valueOf_lookup s c f) by done.
  destruct (decide (x = y)) as [<-|Hne].
  - by rewrite lookup_insert_eq, Ex.
  - by rewrite lookup_insert_ne.
Qed.

Lemma subscript_evolves s c (f : Frame SVInt) x :
  currentFrame s = Some c → frames s !! c = Some f →
  evolves (current s) s
    (match temporaries f !! x with
     | Some _ => s
     | None => setTemporaries c (<[x := Empty]> (temporaries f)) s
     end).
Proof.
  intros Hc Hf. destruct (temporaries f !! x) eqn:Ex; [apply evolves_refl|].
  apply (setTemporaries_current_evolves s c f); auto.
  intros y. destruct (decide (x = y)) as [<-|Hne].
  - by rewrite lookup_insert_eq, Ex.
  - by rewrite lookup_insert_ne.
Qed.

Lemma readSlot_Ok r s v :
  readSlot r s = Ok v ↔
  ∃ f : Frame SVInt, frames s !! r.1 = Some f ∧ temporaries f !! r.2 = Some v.
Proof.
  unfold readSlot, frameAt. destruct (frames s !! r.1) as [f|]; simpl.
  - destruct (temporaries f !! r.2) eqn:E; split.
    + intros [= ->]. eauto.
    + intros (g & [= <-] & Hg). congruence.
    + discriminate.
    + intros (g & [= <-] & Hg). congruence.
  - split; [discriminate|]. intros (g & ? & _). discriminate.
Qed.

Lemma writeSlot_Ok r v s s' :
  writeSlot r v s = Ok s' ↔
  ∃ f : Frame SVInt, frames s !! r.1 = Some f
    ∧ s' = setTemporaries r.1 (<[r.2 := v]> (temporaries f)) s.
Proof.
  unfold writeSlot, frameAt. destruct (frames s !! r.1) as [f|]; simpl.
  - split.
    + intros [= <-]. eauto.
    + intros (g & [= <-] & ->). done.
  - split; [discriminate|]. intros (g & ? & _). discriminate.
Qed.

(** *** Reading a variable *)

Lemma evaluateVariable_Ok x s v s' :
  evaluateVariable x s = Ok (v, s') →
  s' = s ∧ valueOf s x = v ∧ cv_bool v = true.
Proof.
  unfold evaluateVariable. intros H.
  unbind H as [[a k] s1] E. unbind H as val E0.
  apply subscript_Ok in E as (c & f & Hc & Hf & [= -> ->] & ->).
  apply readSlot_Ok in E0 as (g & Hg & Hv). simpl in *.
  destruct (cv_bool val) eqn:Hb; [|discriminate]. inversion H; subst; clear H.
  destruct (temporaries f !! x) eqn:Ex.
  - rewrite (valueOf_lookup s c g) by done. by rewrite Hv.
  - rewrite (lookup_setTemporaries_eq _ _ _ f Hf) in Hg. inversion Hg; subst.
    simpl in Hv. rewrite lookup_insert_eq in Hv. inversion Hv; subst. done.
Qed.

Lemma evaluateVariable_bound x s i :
  wellFormed s → valueOf s x = Integer i →
  evaluateVariable x s = Ok (Integer i, s).
Proof.
  intros (c & f & Hc & Hf)%wellFormed_frame Hv. unfold evaluateVariable.
  rewrite (subscript_current s c f) by done. simpl.
  rewrite (valueOf_lookup s c f) in Hv by done.
  destruct (temporaries f !! x) as [w|] eqn:Ex; [|discriminate].
  simpl in Hv; subst w. unfold readSlot, frameAt; simpl. by rewrite Hf; simpl; rewrite Ex.
Qed.

Lemma evaluateVariable_unbound x s :
  wellFormed s → isBound s x = false →
  evaluateVariable x s = Abort UnboundVariable.
Proof.
  intros (c & f & Hc & Hf)%wellFormed_frame Hv. unfold evaluateVariable.
  rewrite (subscript_current s c f) by done. simpl.
  unfold isBound in Hv. rewrite (valueOf_lookup s c f) in Hv by done.
  destruct (temporaries f !! x) as [w|] eqn:Ex; simpl in Hv.
  - unfold readSlot, frameAt; simpl. rewrite Hf; simpl; rewrite Ex. simpl. by rewrite Hv.
  - unfold readSlot, frameAt; cbn.
    rewrite (lookup_setTemporaries_eq _ _ _ f Hf). cbn.
    by rewrite lookup_insert_eq.
Qed.

Lemma valueOf_ext s s' x :
  currentFrame s' = currentFrame s →
  (∀ c, currentFrame s = Some c → frames s' !! c = frames s !! c) →
  valueOf s' x = valueOf s x.
Proof.
  intros Hc Hf. unfold valueOf, currentTemporaries, temporariesAt. rewrite Hc.
  destruct (currentFrame s) as [c|]; [|done]. simpl. by rewrite Hf.
Qed.

Lemma evolves_step s s1 s2 :
  evolves (current s) s s1 → evolves (current s1) s1 s2 →
  evolves (current s) s s2.
Proof.
  intros H1 H2. eapply evolves_trans; [exact H1|].
  eapply evolves_mono; [|exact H2].
  intros a. unfold current. by rewrite (evolves_current _ _ _ H1).
Qed.

Lemma assignedValue_bound kind (l r : SVInt) (v : CV) :
  assignedValue kind (Integer r) l r = Some v → cv_bool v = true.
Proof. destruct kind; simpl; intros [= <-]; done. Qed.

(** *** The shape of the frames is kept by every evaluation *)

Section Shape.
Variable ev : Node → CE → Result (CV * CE).
Hypothesis ev_evolves : ∀ tree s v s',
  wellFormed s → ev tree s = Ok (v, s') → evolves (current s) s s'.
Hypothesis ev_variable : ∀ x s v s',
  ev (BoundVariable x) s = Ok (v, s') → evaluateVariable x s = Ok (v, s').

Lemma evaluateVariable_evolves x s v s' :
  evaluateVariable x s = Ok (v, s') → evolves (current s) s s'.
Proof. intros (-> & _)%evaluateVariable_Ok. apply evolves_refl. Qed.

Lemma evaluateUnary_evolves kind operand s v s' :
  wellFormed s → evaluateUnary ev kind operand s = Ok (v, s') →
  evolves (current s) s s'.
Proof.
  intros Hwf H. unfold evaluateUnary in H.
  unbind H as [cv s1] E. unbind H as i Ei.
  assert (s' = s1) as -> by (destruct kind; congruence). eauto.
Qed.

Lemma evaluateBinary_evolves kind lhs rhs s v s' :
  wellFormed s → evaluateBinary ev kind lhs rhs s = Ok (v, s') →
  evolves (current s) s s'.
Proof.
  intros Hwf H. unfold evaluateBinary in H.
  unbind H as [lcv s1] El. unbind H as l Eli.
  unbind H as [rcv s2] Er. unbind H as r Eri.
  assert (s' = s2) as -> by (destruct kind; congruence).
  pose proof (ev_evolves _ _ _ _ Hwf El) as H1.
  eapply evolves_step; [exact H1|].
  eapply ev_evolves; [|exact Er]. by eapply evolves_wellFormed.
Qed.

(** What a successful assignment did: the target is a variable [x] of
    the current frame, the right-hand side gave an integer [r], the
    re-read of [x] after it gave an integer [l], and the value chosen by
    the assignment kind was stored in the slot of [x]. *)
Lemma evaluateAssignment_Ok kind lhs rhs s v s' :
  wellFormed s → evaluateAssignment ev kind lhs rhs s = Ok (v, s') →
  ∃ x c (f f1 : Frame SVInt) s0 s1 (l r : SVInt),
    lhs = BoundVariable x ∧ currentFrame s = Some c
    ∧ frames s !! c = Some f
    ∧ s0 = match temporaries f !! x with
           | Some _ => s
           | None => setTemporaries c (<[x := Empty]> (temporaries f)) s
           end
    ∧ ev rhs s0 = Ok (Integer r, s1)
    ∧ valueOf s1 x = Integer l
    ∧ assignedValue kind (Integer r) l r = Some v
    ∧ frames s1 !! c = Some f1
    ∧ s' = setTemporaries c (<[x := v]> (temporaries f1)) s1.
Proof.
  intros Hwf H. unfold evaluateAssignment in H.
  unbind H as [resolved s0] E.
  destruct lhs as [| | |x| | | | | | |]; try discriminate. simpl in E.
  unbind E as [[c k] s0'] Es.
  apply subscript_Ok in Es as (c' & f & Hc & Hf & [= <- ->] & ->).
  inversion E; subst resolved s0; clear E. simpl in H.
  unbind H as [rvalue s1] Er. unbind H as [lcv s2] El.
  unbind H as l Eli. unbind H as r Eri.
  apply integer_Ok in Eli as ->. apply integer_Ok in Eri as ->.
  apply ev_variable, evaluateVariable_Ok in El as (-> & Hl & _).
  destruct (assignedValue kind (Integer r) l r) as [w|] eqn:Ew; [|discriminate].
  unbind H as s3 Est. unbind H as result Eld.
  inversion H; subst; clear H.
  apply writeSlot_Ok in Est as (f1 & Hf1 & ->). cbn in *.
  apply readSlot_Ok in Eld as (g & Hg & Hv). cbn in *.
  rewrite (lookup_setTemporaries_eq _ _ _ f1 Hf1) in Hg.
  inversion Hg; subst g; clear Hg. simpl in Hv.
  rewrite lookup_insert_eq in Hv. inversion Hv; subst w; clear Hv.
  eexists x, c, f, f1, _, s1, l, r. repeat split; eauto.
Qed.

Lemma evaluateAssignment_evolves kind lhs rhs s v s' :
  wellFormed s → evaluateAssignment ev kind lhs rhs s = Ok (v, s') →
  evolves (current s) s s'.
Proof.
  intros Hwf H.
  apply evaluateAssignment_Ok in H
    as (x & c & f & f1 & s0 & s1 & l & r
        & -> & Hc & Hf & Hs0 & Er & Hl & Hv & Hf1 & ->); [|done].
  assert (evolves (current s) s s0) as H0 by (subst s0; by apply subscript_evolves).
  assert (evolves (current s0) s0 s1) as H1.
  { eapply ev_evolves; [|exact Er]. by eapply evolves_wellFormed. }
  pose proof (evolves_step _ _ _ H0 H1) as H01.
  eapply evolves_step; [exact H01|].
  eapply setTemporaries_current_evolves; [|exact Hf1|].
  - by rewrite (evolves_current _ _ _ H01).
  - intros y. destruct (decide (x = y)) as [<-|Hne].
    + rewrite lookup_insert_eq. simpl.
      rewrite (assignedValue_bound _ _ _ _ Hv).
      rewrite (valueOf_lookup s1 c f1) in Hl; [by rewrite Hl| |done].
      by rewrite (evolves_current _ _ _ H01).
    + by rewrite lookup_insert_ne.
Qed.

Lemma bindArguments_evolves addr formals : ∀ i actuals s s',
  wellFormed s → currentFrame s ≠ Some addr →
  bindArguments ev addr formals i actuals s = Ok s' →
  evolves (λ a, current s a ∨ a = addr) s s'.
Proof.
  induction formals as [|formal rest IH]; intros i actuals s s' Hwf Hne H;
    simpl in H.
  - inversion H; subst. apply evolves_refl.
  - destruct (actuals !! i) as [actual|]; [|discriminate].
    unbind H as [v s1] E. unbind H as s2 Ew.
    apply writeSlot_Ok in Ew as (f & Hf & ->). cbn in *.
    pose proof (ev_evolves _ _ _ _ Hwf E) as H1.
    assert (currentFrame s1 ≠ Some addr) as Hne1
      by (by rewrite (evolves_current _ _ _ H1)).
    pose proof (setTemporaries_other_evolves s1 addr
                  (<[formal := v]> (temporaries f)) Hne1) as H2.
    eapply evolves_trans; [eapply evolves_mono; [|exact H1]; by left|].
    eapply evolves_trans; [eapply evolves_mono; [|exact H2]; intros ? <-; by right|].
    eapply evolves_mono; [|eapply IH; [| |exact H]].
    + intros a [Ha| ->]; [left|by right].
      unfold current in *. by rewrite <- (evolves_current _ _ _ H1).
    + eapply evolves_wellFormed; [exact H2|]. by eapply evolves_wellFormed.
    + done.
Qed.

Lemma evaluateCall_evolves subroutine actuals s v s' :
  wellFormed s → evaluateCall program ev subroutine actuals s = Ok (v, s') →
  evolves (current s) s s'.
Proof.
  intros Hwf H. unfold evaluateCall in H.
  destruct (program !! subroutine) as [sub|]; [|discriminate].
  unbind H as s1 Ea. unbind H as [result s3] Eb. unbind H as s4 El.
  inversion H; subst; clear H.
  destruct Hwf as (c & Hc & Hlt).
  set (addr := length (frames s)) in *.
  assert (wellFormed (withNewFrame s)) as Hwf0.
  { exists c. split; [done|]. simpl. rewrite length_app. lia. }
  assert (currentFrame (withNewFrame s) ≠ Some addr) as Hne.
  { simpl. rewrite Hc. intros [= ->]. lia. }
  pose proof (bindArguments_evolves _ _ _ _ _ _ Hwf0 Hne Ea) as H1.
  assert (length (frames s1) = S addr) as Hlen1.
  { rewrite (evolves_length _ _ _ H1). simpl. rewrite length_app. simpl. lia. }
  assert (wellFormed (enterFrame addr s1)) as Hwf2.
  { exists addr. split; [done|]. simpl. lia. }
  pose proof (ev_evolves _ _ _ _ Hwf2 Eb) as H3.
  unfold leaveFrame in El. unbind El as [a' f3] Ef.
  apply frameAt_Ok in Ef as [[= <-] Hf3]. inversion El; subst s'; clear El.
  assert (frames (withNewFrame s) !! addr
          = Some {| temporaries := ∅; parent := currentFrame s |}) as Hnew.
  { simpl. rewrite lookup_app_r by (subst addr; lia).
    by replace (addr - length (frames s)) with 0 by (subst addr; lia). }
  assert (is_Some (frames s1 !! addr)) as [f1 Hf1]
    by (apply lookup_lt_is_Some; lia).
  assert (parent f3 = currentFrame s) as Hparent.
  { rewrite (evolves_parent _ _ _ H3 addr f1 f3 Hf1 Hf3).
    by rewrite (evolves_parent _ _ _ H1 addr _ f1 Hnew Hf1). }
  assert (∀ a, a < addr → a ≠ c →
            frames s3 !! a = frames s !! a) as Hothers.
  { intros a Ha Hac.
    rewrite (evolves_frame _ _ _ H3) by (unfold current; simpl; intros [= ->]; lia).
    rewrite (evolves_frame _ _ _ H1);
      [simpl; by rewrite lookup_app_l|].
    unfold current; simpl. rewrite Hc. intros [[= ->]| ->]; [done|lia]. }
  assert (length (frames s3) = S addr) as Hlen3
    by (by rewrite (evolves_length _ _ _ H3)).
  split; simpl.
  - done.
  - rewrite length_take. lia.
  - intros a f f' Hf Hf'.
    assert (a < addr) as Ha by (apply lookup_lt_Some in Hf; done).
    rewrite lookup_take_lt in Hf' by done.
    assert (is_Some (frames s1 !! a)) as [g Hg]
      by (apply lookup_lt_is_Some; lia).
    rewrite (evolves_parent _ _ _ H3 a g f' Hg Hf').
    apply (evolves_parent _ _ _ H1 a f g); [|done].
    simpl. by rewrite lookup_app_l.
  - intros a Ha. destruct (decide (a < addr)) as [Hlt'|Hge].
    + rewrite lookup_take_lt by done. apply Hothers; [done|].
      intros ->. by apply Ha.
    + rewrite lookup_take_ge by lia. symmetry. apply lookup_ge_None. lia.
  - intros x. unfold isBound.
    transitivity (cv_bool (valueOf s1 x)).
    + f_equal. apply valueOf_ext; simpl.
      * by rewrite Hparent, (evolves_current _ _ _ H1).
      * rewrite (evolves_current _ _ _ H1). simpl. rewrite Hc.
        intros ? [= <-]. rewrite lookup_take_lt by done.
        apply (evolves_frame _ _ _ H3). unfold current; simpl.
        intros [= ->]. lia.
    + change (isBound s1 x = isBound s x).
      rewrite (evolves_bound _ _ _ H1 x). unfold isBound. f_equal.
      apply valueOf_ext; simpl; [done|].
      rewrite Hc. intros ? [= <-]. by rewrite lookup_app_l.
Qed.

Lemma dispatch_evolves tree s v s' :
  wellFormed s → dispatch program ev tree s = Ok (v, s') →
  evolves (current s) s s'.
Proof.
  intros Hwf H. destruct tree; simpl in H.
  - inversion H; subst. apply evolves_refl.
  - inversion H; subst. apply evolves_refl.
  - inversion H; subst. apply evolves_refl.
  - by eapply evaluateVariable_evolves.
  - by eapply evaluateUnary_evolves.
  - by eapply evaluateBinary_evolves.
  - by eapply evaluateAssignment_evolves.
  - by eapply evaluateCall_evolves.
  - destruct list as [|item rest]; simpl in H.
    + inversion H; subst. apply evolves_refl.
    + by eapply ev_evolves.
  - by eapply ev_evolves.
  - discriminate.
Qed.
End Shape.

Lemma evaluate_variable n x s :
  evaluate program (S n) (BoundVariable x) s = evaluateVariable x s.
Proof. done. Qed.

Lemma evaluate_variable_Ok n x s v s' :
  evaluate program n (BoundVariable x) s = Ok (v, s') →
  evaluateVariable x s = Ok (v, s').
Proof. destruct n; [discriminate|done]. Qed.

(** Every successful evaluation keeps the current frame pointer, the
    live frames and their parent links, writes to the current frame only,
    and binds or unbinds no symbol. *)
Lemma evaluate_evolves n : ∀ tree s v s',
  wellFormed s → evaluate program n tree s = Ok (v, s') →
  evolves (current s) s s'.
Proof.
  induction n as [|n IH]; intros tree s v s' Hwf H; [discriminate|].
  simpl in H. eapply dispatch_evolves; [exact IH| |exact Hwf|exact H].
  apply evaluate_variable_Ok.
Qed.

(** *** Frames other than the current one are not observed *)

Lemma setTemporaries_comm a b m m' s :
  a ≠ b →
  setTemporaries a m (setTemporaries b m' s)
  = setTemporaries b m' (setTemporaries a m s).
Proof.
  intros Hne. unfold setTemporaries; simpl. f_equal.
  by apply list_alter_alter_ne.
Qed.

Lemma wellFormed_setTemporaries a m s :
  wellFormed s → wellFormed (setTemporaries a m s).
Proof.
  intros (c & Hc & Hlt). exists c. split; [done|].
  by rewrite length_setTemporaries.
Qed.

Lemma subscript_ignores a m s x :
  wellFormed s → currentFrame s ≠ Some a →
  subscript (currentFrame s) x (setTemporaries a m s)
  = onState (setTemporaries a m) (subscript (currentFrame s) x s).
Proof.
  intros (c & f & Hc & Hf)%wellFormed_frame Hne.
  rewrite (subscript_current s c f) by done.
  change (currentFrame s) with (currentFrame (setTemporaries a m s)).
  rewrite (subscript_current (setTemporaries a m s) c f);
    [|done|rewrite lookup_setTemporaries_ne; [done|congruence]].
  simpl. destruct (temporaries f !! x); [done|].
  rewrite setTemporaries_comm; [done|congruence].
Qed.

Lemma readSlot_ignores a m s r :
  r.1 ≠ a → readSlot r (setTemporaries a m s) = readSlot r s.
Proof.
  intros Hne. unfold readSlot, frameAt.
  rewrite lookup_setTemporaries_ne by done. done.
Qed.

Lemma writeSlot_ignores a m s r v :
  r.1 ≠ a →
  writeSlot r v (setTemporaries a m s)
  = onResult (setTemporaries a m) (writeSlot r v s).
Proof.
  intros Hne. unfold writeSlot, frameAt.
  rewrite lookup_setTemporaries_ne by done.
  destruct (frames s !! r.1) as [f|]; [|done]. simpl.
  rewrite setTemporaries_comm; done.
Qed.

Lemma evaluateVariable_ignores a m s x :
  wellFormed s → currentFrame s ≠ Some a →
  evaluateVariable x (setTemporaries a m s)
  = onState (setTemporaries a m) (evaluateVariable x s).
Proof.
  intros Hwf Hne.
  pose proof (wellFormed_setTemporaries a m s Hwf) as Hwf'.
  pose proof (valueOf_setTemporaries_ne s a m x Hne) as Hv.
  destruct (valueOf s x) as [|i] eqn:Ex.
  - rewrite !evaluateVariable_unbound; auto; unfold isBound; by rewrite ?Hv, ?Ex.
  - by rewrite (evaluateVariable_bound x s i), (evaluateVariable_bound x _ i).
Qed.

Lemma evaluateLValue_ignores a m s (lhs : Node) :
  wellFormed s → currentFrame s ≠ Some a →
  evaluateLValue lhs (setTemporaries a m s)
  = onState (setTemporaries a m) (evaluateLValue lhs s).
Proof.
  intros Hwf Hne. destruct lhs as [| | |x| | | | | | |]; try done. simpl.
  change (currentFrame (setTemporaries a m s)) with (currentFrame s).
  rewrite subscript_ignores by done.
  by destruct (subscript (currentFrame s) x s) as [[[c k] s1]| |].
Qed.

Section Independence.
Variable ev : Node → CE → Result (CV * CE).
Hypothesis ev_evolves : ∀ tree s v s',
  wellFormed s → ev tree s = Ok (v, s') → evolves (current s) s s'.
Hypothesis ev_ignores : ∀ tree s a m,
  wellFormed s → currentFrame s ≠ Some a → a < length (frames s) →
  ev tree (setTemporaries a m s) = onState (setTemporaries a m) (ev tree s).

(** The side conditions survive a step of evaluation. *)
Lemma ignores_step s s1 a (T : nat → Prop) :
  evolves T s s1 →
  wellFormed s → currentFrame s ≠ Some a → a < length (frames s) →
  wellFormed s1 ∧ currentFrame s1 ≠ Some a ∧ a < length (frames s1).
Proof.
  intros H Hwf Hne Hlt. split; [by eapply evolves_wellFormed|].
  by rewrite (evolves_current _ _ _ H), (evolves_length _ _ _ H).
Qed.

Lemma evaluateUnary_ignores kind operand s a m :
  wellFormed s → currentFrame s ≠ Some a → a < length (frames s) →
  evaluateUnary ev kind operand (setTemporaries a m s)
  = onState (setTemporaries a m) (evaluateUnary ev kind operand s).
Proof.
  intros Hwf Hne Hlt. unfold evaluateUnary. rewrite ev_ignores by done.
  destruct (ev operand s) as [[cv s1]| |]; simpl; try done.
  destruct cv; simpl; try done. by destruct kind.
Qed.

Lemma evaluateBinary_ignores kind lhs rhs s a m :
  wellFormed s → currentFrame s ≠ Some a → a < length (frames s) →
  evaluateBinary ev kind lhs rhs (setTemporaries a m s)
  = onState (setTemporaries a m) (evaluateBinary ev kind lhs rhs s).
Proof.
  intros Hwf Hne Hlt. unfold evaluateBinary. rewrite ev_ignores by done.
  destruct (ev lhs s) as [[lcv s1]| |] eqn:El; simpl; try done.
  destruct lcv as [|l]; simpl; try done.
  destruct (ignores_step s s1 a _ (ev_evolves _ _ _ _ Hwf El))
    as (Hwf1 & Hne1 & Hlt1); try done.
  rewrite ev_ignores by done.
  destruct (ev rhs s1) as [[rcv s2]| |]; simpl; try done.
  destruct rcv; simpl; try done. by destruct kind.
Qed.

Lemma evaluateAssignment_ignores kind lhs rhs s a m :
  wellFormed s → currentFrame s ≠ Some a → a < length (frames s) →
  evaluateAssignment ev kind lhs rhs (setTemporaries a m s)
  = onState (setTemporaries a m) (evaluateAssignment ev kind lhs rhs s).
Proof.
  intros Hwf Hne Hlt. unfold evaluateAssignment.
  rewrite evaluateLValue_ignores by done.
  destruct (evaluateLValue lhs s) as [[resolved s0]| |] eqn:E0; simpl; try done.
  destruct resolved as [lvalue|]; [|done].
  destruct lhs as [| | |x| | | | | | |]; try discriminate. simpl in E0.
  unbind E0 as [[c k] s0'] Es.
  apply subscript_Ok in Es as (c' & f & Hc & Hf & [= -> ->] & Hs0).
  inversion E0; subst lvalue s0'; clear E0.
  assert (evolves (current s) s s0) as H0 by (subst s0; by apply subscript_evolves).
  destruct (ignores_step s s0 a _ H0) as (Hwf0 & Hne0 & Hlt0); try done.
  rewrite ev_ignores by done.
  destruct (ev rhs s0) as [[rvalue s1]| |] eqn:Er; simpl; try done.
  destruct (ignores_step s0 s1 a _ (ev_evolves _ _ _ _ Hwf0 Er))
    as (Hwf1 & Hne1 & Hlt1); try done.
  rewrite ev_ignores by done.
  destruct (ev (BoundVariable x) s1) as [[lcv s2]| |] eqn:El; simpl; try done.
  destruct (ignores_step s1 s2 a _ (ev_evolves _ _ _ _ Hwf1 El))
    as (Hwf2 & Hne2 & Hlt2); try done.
  destruct lcv as [|l]; simpl; try done.
  destruct rvalue as [|r]; simpl; try done.
  destruct (assignedValue kind (Integer r) l r) as [w|]; [|done].
  assert (c' ≠ a) as Hca by congruence.
  unfold store, load. simpl. rewrite writeSlot_ignores by done.
  destruct (writeSlot (c', x) w s2) as [s3| |]; simpl; try done.
  rewrite readSlot_ignores by done.
  by destruct (readSlot (c', x) s3).
Qed.

Lemma bindArguments_ignores addr formals a m : ∀ i actuals s,
  wellFormed s → currentFrame s ≠ Some a → a < length (frames s) →
  currentFrame s ≠ Some addr → addr ≠ a →
  bindArguments ev addr formals i actuals (setTemporaries a m s)
  = onResult (setTemporaries a m) (bindArguments ev addr formals i actuals s).
Proof.
  induction formals as [|formal rest IH];
    intros i actuals s Hwf Hne Hlt Hna Haa; simpl; [done|].
  destruct (actuals !! i) as [actual|]; [|done].
  rewrite ev_ignores by done.
  destruct (ev actual s) as [[v s1]| |] eqn:E; simpl; try done.
  pose proof (ev_evolves _ _ _ _ Hwf E) as H1.
  destruct (ignores_step s s1 a _ H1) as (Hwf1 & Hne1 & Hlt1); try done.
  rewrite writeSlot_ignores by done.
  destruct (writeSlot (addr, formal) v s1) as [s2| |] eqn:Ew; simpl; try done.
  apply writeSlot_Ok in Ew as (f & Hf & ->). cbn in *.
  assert (currentFrame s1 ≠ Some addr) as Hna1
    by (by rewrite (evolves_current _ _ _ H1)).
  apply IH; try done.
  - by apply wellFormed_setTemporaries.
  - by rewrite length_setTemporaries.
Qed.

Lemma leaveFrame_ignores addr a m s :
  a < addr →
  leaveFrame addr (setTemporaries a m s)
  = onResult (setTemporaries a m) (leaveFrame addr s).
Proof.
  intros Hlt. unfold leaveFrame, frameAt.
  rewrite lookup_setTemporaries_ne by lia.
  destruct (frames s !! addr) as [f|]; [|done]. simpl.
  unfold setTemporaries; simpl. by rewrite take_alter_lt.
Qed.

Lemma evaluateCall_ignores subroutine actuals s a m :
  wellFormed s → currentFrame s ≠ Some a → a < length (frames s) →
  evaluateCall program ev subroutine actuals (setTemporaries a m s)
  = onState (setTemporaries a m) (evaluateCall program ev subroutine actuals s).
Proof.
  intros Hwf Hne Hlt. unfold evaluateCall.
  rewrite length_setTemporaries.
  destruct (program !! subroutine) as [sub|]; [|done].
  set (addr := length (frames s)) in *.
  assert (withNewFrame (setTemporaries a m s)
          = setTemporaries a m (withNewFrame s)) as ->.
  { unfold withNewFrame, setTemporaries; simpl. f_equal.
    by rewrite alter_app_l. }
  assert (wellFormed (withNewFrame s)) as Hwf0.
  { destruct Hwf as (c & Hc & Hc'). exists c. split; [done|].
    simpl. rewrite length_app. lia. }
  assert (currentFrame (withNewFrame s) ≠ Some addr) as Hna.
  { destruct Hwf as (c & Hc & Hc'). simpl. rewrite Hc. intros [= ->]. lia. }
  rewrite bindArguments_ignores; try done;
    [|simpl; rewrite length_app; lia|lia].
  destruct (bindArguments ev addr (arguments sub) 0 actuals (withNewFrame s))
    as [s1| |] eqn:Ea; simpl; try done.
  pose proof (bindArguments_evolves ev ev_evolves _ _ _ _ _ _ Hwf0 Hna Ea) as H1.
  assert (length (frames s1) = S addr) as Hlen1.
  { rewrite (evolves_length _ _ _ H1). simpl. rewrite length_app. simpl. lia. }
  change (enterFrame addr (setTemporaries a m s1))
    with (setTemporaries a m (enterFrame addr s1)).
  assert (wellFormed (enterFrame addr s1)) as Hwf2.
  { exists addr. split; [done|]. simpl. lia. }
  rewrite ev_ignores; [|done|simpl; intros [= ->]; lia|simpl; lia].
  destruct (ev (body sub) (enterFrame addr s1)) as [[result s3]| |];
    simpl; try done.
  rewrite leaveFrame_ignores by done.
  by destruct (leaveFrame addr s3).
Qed.

Lemma dispatch_ignores tree s a m :
  wellFormed s → currentFrame s ≠ Some a → a < length (frames s) →
  dispatch program ev tree (setTemporaries a m s)
  = onState (setTemporaries a m) (dispatch program ev tree s).
Proof.
  intros Hwf Hne Hlt. destruct tree; simpl; try done.
  - by apply evaluateVariable_ignores.
  - by apply evaluateUnary_ignores.
  - by apply evaluateBinary_ignores.
  - by apply evaluateAssignment_ignores.
  - by apply evaluateCall_ignores.
  - destruct list; simpl; [done|]. by apply ev_ignores.
  - by apply ev_ignores.
Qed.
End Independence.

(** An evaluation neither reads nor writes a frame that is not the
    current one: replacing the temporaries of such a frame changes nothing
    but that frame. *)
Lemma evaluate_ignores n : ∀ tree s a m,
  wellFormed s → currentFrame s ≠ Some a → a < length (frames s) →
  evaluate program n tree (setTemporaries a m s)
  = onState (setTemporaries a m) (evaluate program n tree s).
Proof.
  induction n as [|n IH]; intros tree s a m Hwf Hne Hlt; [done|].
  simpl. apply dispatch_ignores; auto. apply evaluate_evolves.
Qed.

(** *** More fuel changes no outcome *)

Section Fuel.
Variables ev ev' : Node → CE → Result (CV * CE).
Hypothesis ev_le : ∀ tree s, ev tree s ≠ OutOfFuel → ev' tree s = ev tree s.

(** Replace the next call of the deeper evaluator by the shallower one,
    which did not run out of fuel since the whole did not. *)
Ltac deepen H tree s :=
  let E := fresh "E" in
  assert (ev' tree s = ev tree s) as ->
    by (apply ev_le; intros E; rewrite E in H; by simpl in H).

Lemma evaluateUnary_fuel kind operand s :
  evaluateUnary ev kind operand s ≠ OutOfFuel →
  evaluateUnary ev' kind operand s = evaluateUnary ev kind operand s.
Proof. unfold evaluateUnary. intros H. by deepen H operand s. Qed.

Lemma evaluateBinary_fuel kind lhs rhs s :
  evaluateBinary ev kind lhs rhs s ≠ OutOfFuel →
  evaluateBinary ev' kind lhs rhs s = evaluateBinary ev kind lhs rhs s.
Proof.
  unfold evaluateBinary. intros H. deepen H lhs s.
  destruct (ev lhs s) as [[[|l] s1]| |]; simpl in *; try done.
  by deepen H rhs s1.
Qed.

Lemma evaluateAssignment_fuel kind lhs rhs s :
  evaluateAssignment ev kind lhs rhs s ≠ OutOfFuel →
  evaluateAssignment ev' kind lhs rhs s = evaluateAssignment ev kind lhs rhs s.
Proof.
  unfold evaluateAssignment. intros H.
  destruct (evaluateLValue lhs s) as [[[lvalue|] s0]| |]; simpl in *; try done.
  deepen H rhs s0.
  destruct (ev rhs s0) as [[rvalue s1]| |]; simpl in *; try done.
  by deepen H lhs s1.
Qed.

Lemma bindArguments_fuel addr formals : ∀ i actuals s,
  bindArguments ev addr formals i actuals s ≠ OutOfFuel →
  bindArguments ev' addr formals i actuals s
  = bindArguments ev addr formals i actuals s.
Proof.
  induction formals as [|formal rest IH]; intros i actuals s H; simpl in *;
    [done|].
  destruct (actuals !! i) as [actual|]; [|done].
  deepen H actual s.
  destruct (ev actual s) as [[v s1]| |]; simpl in *; try done.
  destruct (writeSlot (addr, formal) v s1) as [s2| |]; simpl in *; try done.
  by apply IH.
Qed.

Lemma evaluateCall_fuel subroutine actuals s :
  evaluateCall program ev subroutine actuals s ≠ OutOfFuel →
  evaluateCall program ev' subroutine actuals s
  = evaluateCall program ev subroutine actuals s.
Proof.
  unfold evaluateCall. intros H.
  destruct (program !! subroutine) as [sub|]; [|done].
  rewrite bindArguments_fuel
    by (intros E; rewrite E in H; by simpl in H).
  destruct (bindArguments ev (length (frames s)) (arguments sub) 0 actuals
              (withNewFrame s)) as [s1| |]; simpl in *; try done.
  by deepen H (body sub) (enterFrame (length (frames s)) s1).
Qed.

Lemma dispatch_fuel tree s :
  dispatch program ev tree s ≠ OutOfFuel →
  dispatch program ev' tree s = dispatch program ev tree s.
Proof.
  intros H. destruct tree; simpl in *; try done.
  - by apply evaluateUnary_fuel.
  - by apply evaluateBinary_fuel.
  - by apply evaluateAssignment_fuel.
  - by apply evaluateCall_fuel.
  - destruct list; simpl in *; [done|]. by apply ev_le.
  - by apply ev_le.
Qed.
End Fuel.

(** An evaluation that did not run out of fuel has the same outcome with
    more fuel. *)
Lemma evaluate_fuel n : ∀ tree s,
  evaluate program n tree s ≠ OutOfFuel →
  evaluate program (S n) tree s = evaluate program n tree s.
Proof.
  induction n as [|n IH]; intros tree s H; [done|].
  change (dispatch program (evaluate program (S n)) tree s
          = dispatch program (evaluate program n) tree s).
  by apply dispatch_fuel.
Qed.

Lemma evaluate_fuel_le n m tree s :
  n ≤ m → evaluate program n tree s ≠ OutOfFuel →
  evaluate program m tree s = evaluate program n tree s.
Proof.
  induction 1 as [|m Hle IH]; intros H; [done|].
  rewrite evaluate_fuel; [by apply IH|]. by rewrite IH.
Qed.

(** *** The steps of an assignment *)

Lemma temporariesAt_lookup a s (f : Frame SVInt) :
  frames s !! a = Some f → temporariesAt a s = temporaries f.
Proof. intros E. unfold temporariesAt. by rewrite E. Qed.

Lemma subscript_materialise s c x :
  wellFormed s → currentFrame s = Some c →
  subscript (currentFrame s) x s = Ok (c, x, materialise x s).
Proof.
  intros (c' & f & Hc' & Hf)%wellFormed_frame Hc.
  assert (c' = c) as -> by congruence.
  rewrite (subscript_current s c f) by done. unfold materialise.
  by rewrite Hc, (temporariesAt_lookup c s f).
Qed.

Lemma materialise_bound s x :
  isBound s x = true → materialise x s = s.
Proof.
  unfold isBound, valueOf, currentTemporaries, materialise.
  destruct (currentFrame s) as [c|]; [|done]. simpl.
  by destruct (temporariesAt c s !! x).
Qed.

Lemma materialise_evolves s x :
  wellFormed s → evolves (current s) s (materialise x s).
Proof.
  intros (c & f & Hc & Hf)%wellFormed_frame.
  pose proof (subscript_evolves s c f x Hc Hf) as H.
  unfold materialise. by rewrite Hc, (temporariesAt_lookup c s f).
Qed.

Lemma materialise_valueOf s x y :
  wellFormed s → valueOf (materialise x s) y = valueOf s y.
Proof.
  intros (c & f & Hc & Hf)%wellFormed_frame.
  pose proof (subscript_valueOf s c f x y Hc Hf) as H.
  unfold materialise. by rewrite Hc, (temporariesAt_lookup c s f).
Qed.

Lemma valueOf_assign s x v :
  wellFormed s → valueOf (assign x v s) x = v.
Proof.
  intros (c & f & Hc & Hf)%wellFormed_frame. unfold assign. rewrite Hc.
  rewrite (valueOf_setTemporaries s c f) by done.
  by rewrite lookup_insert_eq.
Qed.

Lemma isBound_Integer s x :
  isBound s x = true → ∃ i, valueOf s x = Integer i.
Proof. apply cv_bool_true. Qed.

(** The assignment, step by step, from a well-formed state: the target
    is resolved, the right-hand side is evaluated, the target is read,
    both values must be integers, and the chosen value is stored. *)
Lemma evaluateAssignment_steps n kind x rhs s :
  wellFormed s →
  evaluate program (S n)
    (BoundAssignmentExpression kind (BoundVariable x) rhs) s
  = match evaluate program n rhs (materialise x s) with
    | Ok (rvalue, s1) =>
        match valueOf s1 x with
        | Empty => Abort UnboundVariable
        | Integer l =>
            match rvalue with
            | Empty => Abort EmptyInteger
            | Integer r =>
                match assignedValue kind rvalue l r with
                | Some v => Ok (v, assign x v s1)
                | None => Abort DefaultUnreachable
                end
            end
        end
    | Abort f => Abort f
    | OutOfFuel => OutOfFuel
    end.
Proof.
  intros Hwf. pose proof Hwf as (c & Hc & Hlt).
  simpl. unfold evaluateAssignment, evaluateLValue.
  rewrite (subscript_materialise s c x) by done. simpl.
  pose proof (materialise_evolves s x Hwf) as H0.
  pose proof (evolves_wellFormed _ _ _ H0 Hwf) as Hwf0.
  destruct (evaluate program n rhs (materialise x s))
    as [[rvalue s1]| |] eqn:Er; simpl; try done.
  pose proof (evaluate_evolves n _ _ _ _ Hwf0 Er) as H1.
  pose proof (evolves_wellFormed _ _ _ H1 Hwf0) as Hwf1.
  assert (currentFrame s1 = Some c) as Hc1
    by (by rewrite (evolves_current _ _ _ H1), (evolves_current _ _ _ H0)).
  destruct n as [|n]; [discriminate|].
  rewrite evaluate_variable.
  destruct (valueOf s1 x) as [|l] eqn:El.
  - rewrite evaluateVariable_unbound; [done|done|]. unfold isBound. by rewrite El.
  - rewrite (evaluateVariable_bound x s1 l) by done. simpl.
    destruct rvalue as [|r]; simpl; [done|].
    destruct (assignedValue kind (Integer r) l r) as [v|]; [|done].
    destruct (wellFormed_frame s1 Hwf1) as (c' & f1 & Hc' & Hf1).
    assert (c' = c) as -> by congruence.
    unfold store, load, writeSlot, readSlot, frameAt. cbn.
    rewrite Hf1. cbn.
    rewrite (lookup_setTemporaries_eq _ _ _ f1 Hf1). cbn.
    rewrite lookup_insert_eq. unfold assign.
    by rewrite Hc1, (temporariesAt_lookup c s1 f1).
Qed.

(** *** Empty operands *)

Lemma evaluateUnary_Empty ev kind (operand : Node) s s1 :
  ev operand s = Ok (Empty, s1) →
  evaluateUnary ev kind operand s = Abort EmptyInteger.
Proof. intros E. unfold evaluateUnary. by rewrite E. Qed.

Lemma evaluateBinary_Empty_left ev kind (lhs rhs : Node) s s1 :
  ev lhs s = Ok (Empty, s1) →
  evaluateBinary ev kind lhs rhs s = Abort EmptyInteger.
Proof. intros E. unfold evaluateBinary. by rewrite E. Qed.

Lemma evaluateBinary_Empty_right ev kind (lhs rhs : Node) s (l : SVInt) s1 s2 :
  ev lhs s = Ok (Integer l, s1) → ev rhs s1 = Ok (Empty, s2) →
  evaluateBinary ev kind lhs rhs s = Abort EmptyInteger.
Proof. intros El Er. unfold evaluateBinary. rewrite El. simpl. by rewrite Er. Qed.

(** Whatever the operand, a unary or a binary expression that evaluates to
    a value evaluates to an integer: the operators build their result from
    an integer and have no path that forwards Empty. *)
Lemma operators_never_Empty n kind (operand lhs rhs : Node) s v s' :
  evaluate program (S n) (BoundUnaryExpression kind operand) s = Ok (v, s')
  ∨ evaluate program (S n) (BoundBinaryExpression kind lhs rhs) s = Ok (v, s') →
  cv_bool v = true.
Proof.
  simpl. unfold evaluateUnary, evaluateBinary. intros [H|H].
  - unbind H as [cv s1] E. unbind H as i Ei.
    destruct kind; inversion H; subst; done.
  - unbind H as [lcv s1] El. unbind H as l Eli.
    unbind H as [rcv s2] Er. unbind H as r Eri.
    destruct kind; inversion H; subst; done.
Qed.

(** C1 (the evaluator, at the failing inputs): a unary expression over an
    invalid operand, and a binary expression with an invalid left or
    right operand, do not evaluate to Empty: [evaluate] gives Empty for
    the invalid node, and the operator takes the integer of that value
    without testing it, which aborts. *)
Theorem evaluate_invalid_operand_aborts n kind child (other : Node) (l : SVInt) s :
  evaluate program (S (S n)) (BoundUnaryExpression kind (BoundBad child)) s
  = Abort EmptyInteger
  ∧ evaluate program (S (S n))
      (BoundBinaryExpression kind (BoundBad child) other) s
    = Abort EmptyInteger
  ∧ evaluate program (S (S n))
      (BoundBinaryExpression kind (BoundLiteral (Integer l)) (BoundBad child)) s
    = Abort EmptyInteger.
Proof. done. Qed.

(** *** The lvalue resolver *)

(** C2 (as amended): resolving a variable as an lvalue binds nothing.
    From a well-formed state the resolver succeeds with a handle to the
    slot of [x] in the current frame; every symbol reads the same value
    before and after, the frame pointer, the parent links and all other
    frames are as before; a frame that has a slot for [x] is unchanged;
    a frame without one gets a slot for [x] that holds Empty. *)
Theorem evaluateLValue_binds_nothing x s :
  wellFormed s →
  ∃ c s1,
    currentFrame s = Some c
    ∧ evaluateLValue (BoundVariable x : Node) s
      = Ok (Some {| storage := (c, x) |}, s1)
    ∧ (∀ y, valueOf s1 y = valueOf s y)
    ∧ evolves (current s) s s1
    ∧ match currentTemporaries s !! x with
      | Some _ => s1 = s
      | None => currentTemporaries s1 = <[x := Empty]> (currentTemporaries s)
      end.
Proof.
  intros Hwf. pose proof Hwf as (c & f & Hc & Hf)%wellFormed_frame.
  exists c, (materialise x s). split; [done|]. split.
  { simpl. by rewrite (subscript_materialise s c x). }
  split; [intros y; by apply materialise_valueOf|].
  split; [by apply materialise_evolves|].
  unfold materialise, currentTemporaries. rewrite Hc. simpl.
  destruct (temporariesAt c s !! x) eqn:Ex; [done|].
  change (currentFrame (setTemporaries c (<[x:=Empty]> (temporariesAt c s)) s))
    with (currentFrame s).
  rewrite Hc. simpl. unfold temporariesAt at 1.
  by rewrite (lookup_setTemporaries_eq _ _ _ f Hf).
Qed.

(** *** Assignment *)

(** C3 (as amended): a plain assignment to a variable that is bound in
    the current frame, whose right-hand side evaluates to an integer,
    yields that integer, leaves the variable bound to it, and a read of
    the variable in the resulting state yields it again. *)
Theorem evaluateAssignment_plain n x rhs s (r : SVInt) s1 :
  wellFormed s → isBound s x = true →
  evaluate program n rhs s = Ok (Integer r, s1) →
  evaluate program (S n)
    (BoundAssignmentExpression AssignmentExpression (BoundVariable x) rhs) s
  = Ok (Integer r, assign x (Integer r) s1)
  ∧ valueOf (assign x (Integer r) s1) x = Integer r
  ∧ ∀ m, evaluate program (S m) (BoundVariable x) (assign x (Integer r) s1)
         = Ok (Integer r, assign x (Integer r) s1).
Proof.
  intros Hwf Hb Er.
  pose proof (evaluate_evolves n _ _ _ _ Hwf Er) as H1.
  pose proof (evolves_wellFormed _ _ _ H1 Hwf) as Hwf1.
  rewrite evaluateAssignment_steps, (materialise_bound s x Hb), Er by done.
  destruct (isBound_Integer s1 x) as [l Hl];
    [by rewrite (evolves_bound _ _ _ H1)|].
  rewrite Hl. simpl.
  assert (wellFormed (assign x (Integer r) s1)) as Hwf2.
  { destruct Hwf1 as (c & Hc & Hlt). exists c. unfold assign. rewrite Hc.
    split; [done|]. by rewrite length_setTemporaries. }
  pose proof (valueOf_assign s1 x (Integer r) Hwf1) as Hv.
  split; [done|]. split; [done|].
  intros m. by apply evaluateVariable_bound.
Qed.


(** C10: a plain assignment reads its target as a variable before it
    stores.  When the target is not bound in the current frame, the
    assignment reaches the assertion of the variable read as soon as the
    right-hand side has been evaluated, and stores nothing; when the
    target is bound, the read succeeds after any successful right-hand
    side, and the assignment does not fail at that assertion. *)
Theorem evaluateAssignment_reads_target n x rhs s :
  wellFormed s →
  let assignment :=
    BoundAssignmentExpression AssignmentExpression (BoundVariable x) rhs in
  (isBound s x = false →
     evaluate program (S n) assignment s
     = match evaluate program n rhs (materialise x s) with
       | Ok _ => Abort UnboundVariable
       | Abort f => Abort f
       | OutOfFuel => OutOfFuel
       end)
  ∧ (isBound s x = true →
     evaluate program (S n) assignment s
     = match evaluate program n rhs s with
       | Ok (Integer r, s1) => Ok (Integer r, assign x (Integer r) s1)
       | Ok (Empty, _) => Abort EmptyInteger
       | Abort f => Abort f
       | OutOfFuel => OutOfFuel
       end
     ∧ ∀ v s1, evaluate program n rhs s = Ok (v, s1) →
         ∃ l : SVInt,
           evaluate program n (BoundVariable x) s1 = Ok (Integer l, s1)).
Proof.
  intros Hwf assignment. subst assignment. split; intros Hb.
  - rewrite evaluateAssignment_steps by done.
    pose proof (materialise_evolves s x Hwf) as H0.
    pose proof (evolves_wellFormed _ _ _ H0 Hwf) as Hwf0.
    destruct (evaluate program n rhs (materialise x s))
      as [[rvalue s1]| |] eqn:Er; try done.
    pose proof (evaluate_evolves n _ _ _ _ Hwf0 Er) as H1.
    assert (isBound s1 x = false) as Hb1
      by (by rewrite (evolves_bound _ _ _ H1), (evolves_bound _ _ _ H0)).
    unfold isBound in Hb1. by destruct (valueOf s1 x).
  - rewrite evaluateAssignment_steps, (materialise_bound s x Hb) by done.
    assert (∀ v s1, evaluate program n rhs s = Ok (v, s1) →
              ∃ l : SVInt, valueOf s1 x = Integer l ∧ wellFormed s1) as Hread.
    { intros v s1 Er.
      pose proof (evaluate_evolves n _ _ _ _ Hwf Er) as H1.
      destruct (isBound_Integer s1 x) as [l Hl];
        [by rewrite (evolves_bound _ _ _ H1)|].
      exists l. split; [done|]. by eapply evolves_wellFormed. }
    split.
    + destruct (evaluate program n rhs s) as [[rvalue s1]| |] eqn:Er; try done.
      destruct (Hread _ _ eq_refl) as (l & -> & _). by destruct rvalue.
    + intros v s1 Er. destruct (Hread _ _ Er) as (l & Hl & Hwf1).
      exists l. destruct n as [|n]; [discriminate|].
      rewrite evaluate_variable. by apply evaluateVariable_bound.
Qed.

(** *** Calls *)

Lemma withNewFrame_facts s c :
  currentFrame s = Some c → c < length (frames s) →
  wellFormed (withNewFrame s)
  ∧ currentFrame (withNewFrame s) ≠ Some (length (frames s))
  ∧ length (frames (withNewFrame s)) = S (length (frames s))
  ∧ frames (withNewFrame s) !! length (frames s)
    = Some {| temporaries := ∅; parent := currentFrame s |}.
Proof.
  intros Hc Hlt. repeat split.
  - exists c. split; [done|]. simpl. rewrite length_app. lia.
  - simpl. rewrite Hc. intros [= ->]. lia.
  - simpl. rewrite length_app. simpl. lia.
  - simpl. rewrite lookup_app_r by lia. by rewrite Nat.sub_diag.
Qed.

Lemma bindArguments_run n c addr actuals formals : ∀ i s s1,
  wellFormed s → currentFrame s = Some c → c ≠ addr →
  addr < length (frames s) →
  bindArguments (evaluate program n) addr formals i actuals s = Ok s1 →
  argumentsRun (evaluate program n) c addr actuals formals i s s1.
Proof.
  induction formals as [|formal rest IH];
    intros i s s1 Hwf Hc Hne Hlt H; simpl in H.
  - inversion H; subst. constructor.
  - destruct (actuals !! i) as [actual|] eqn:Ei; [|discriminate].
    unbind H as [v t] E. unbind H as t' Ew.
    pose proof (evaluate_evolves n _ _ _ _ Hwf E) as H1.
    assert (currentFrame s ≠ Some addr) as Hna by congruence.
    eapply run_step; eauto.
    + intros m. by rewrite evaluate_ignores, E.
    + apply (evolves_frame _ _ _ H1). unfold current. congruence.
    + apply writeSlot_Ok in Ew as (f & Hf & ->). cbn in *.
      apply IH; try done.
      * apply wellFormed_setTemporaries. by eapply evolves_wellFormed.
      * change (currentFrame t = Some c). by rewrite (evolves_current _ _ _ H1).
      * by rewrite length_setTemporaries, (evolves_length _ _ _ H1).
  Qed.

(** C5: the arguments of a call are evaluated with the caller's frame as
    the current frame, in the declaration order of the formal parameters,
    each from the state that the previous one left; what the new frame
    holds has no influence on the value or the effect of an argument, and
    no argument evaluation changes the new frame.  The new frame is another
    frame than the caller's and is linked to it as its parent; when the
    last argument is bound the caller's frame is still the current one, and
    the body is then evaluated with the new frame as the current frame, on
    the frames that the loop left, so that nothing the caller's frame holds
    has an influence on the body. *)
Theorem evaluateCall_arguments n sub sr actuals s c s1 :
  wellFormed s → currentFrame s = Some c → program !! sub = Some sr →
  bindArguments (evaluate program n) (length (frames s)) (arguments sr) 0
    actuals (withNewFrame s) = Ok s1 →
  argumentsRun (evaluate program n) c (length (frames s)) actuals
    (arguments sr) 0 (withNewFrame s) s1
  ∧ currentFrame s1 = Some c
  ∧ c ≠ length (frames s)
  ∧ (∃ f : Frame SVInt,
       frames s1 !! length (frames s) = Some f ∧ parent f = Some c)
  ∧ currentFrame (enterFrame (length (frames s)) s1) = Some (length (frames s))
  ∧ frames (enterFrame (length (frames s)) s1) = frames s1
  ∧ currentTemporaries (enterFrame (length (frames s)) s1)
    = temporariesAt (length (frames s)) s1
  ∧ (∀ m,
       evaluate program n (body sr)
         (enterFrame (length (frames s)) (setTemporaries c m s1))
       = onState (setTemporaries c m)
           (evaluate program n (body sr) (enterFrame (length (frames s)) s1)))
  ∧ evaluate program (S n) (BoundCallExpression sub actuals) s
    = (do (result, s3) <-
         evaluate program n (body sr) (enterFrame (length (frames s)) s1);
       do s4 <- leaveFrame (length (frames s)) s3;
       Ok (result, s4)).
Proof.
  intros Hwf Hc Hsub Ea.
  assert (c < length (frames s)) as Hlt
    by (destruct Hwf as (c' & Hc' & ?); congruence).
  destruct (withNewFrame_facts s c Hc Hlt) as (Hwf0 & Hne & Hlen & Hnew).
  pose proof (bindArguments_evolves _ (evaluate_evolves n)
                _ _ _ _ _ _ Hwf0 Hne Ea) as H1.
  assert (length (frames s1) = S (length (frames s))) as Hlen1
    by (by rewrite (evolves_length _ _ _ H1)).
  split; [apply bindArguments_run; try done; [lia|rewrite Hlen; lia]|].
  split; [by rewrite (evolves_current _ _ _ H1)|].
  split; [lia|].
  split.
  { assert (is_Some (frames s1 !! length (frames s))) as [f Hf]
      by (apply lookup_lt_is_Some; lia).
    exists f. split; [done|].
    by rewrite (evolves_parent _ _ _ H1 _ _ f Hnew Hf). }
  split; [done|]. split; [done|]. split; [done|].
  split.
  { intros m.
    change (enterFrame (length (frames s)) (setTemporaries c m s1))
      with (setTemporaries c m (enterFrame (length (frames s)) s1)).
    apply evaluate_ignores.
    - exists (length (frames s)). split; [done|]. simpl. lia.
    - simpl. intros [= E]. lia.
    - simpl. lia. }
  simpl. unfold evaluateCall. by rewrite Hsub, Ea.
Qed.

(** C6: when the arguments of a call are bound and its body evaluates to
    a value, the call evaluates to that value; afterwards the current
    frame pointer is the one before the call, the frame of the call is no
    longer live, and the frames that remain are those of the caller as the
    argument evaluation left them: nothing that the body bound survives. *)
Theorem evaluateCall_returns n sub sr actuals s s1 result s3 :
  wellFormed s → program !! sub = Some sr →
  bindArguments (evaluate program n) (length (frames s)) (arguments sr) 0
    actuals (withNewFrame s) = Ok s1 →
  evaluate program n (body sr) (enterFrame (length (frames s)) s1)
  = Ok (result, s3) →
  ∃ s',
    evaluate program (S n) (BoundCallExpression sub actuals) s = Ok (result, s')
    ∧ currentFrame s' = currentFrame s
    ∧ frames s' = take (length (frames s)) (frames s1)
    ∧ length (frames s') = length (frames s)
    ∧ frames s' !! length (frames s) = None
    ∧ evolves (current s) s s'.
Proof.
  intros Hwf Hsub Ea Eb. pose proof Hwf as (c & Hc & Hlt).
  set (addr := length (frames s)) in *.
  destruct (withNewFrame_facts s c Hc Hlt) as (Hwf0 & Hne & Hlen & Hnew).
  fold addr in Hne, Hlen, Hnew.
  pose proof (bindArguments_evolves _ (evaluate_evolves n)
                _ _ _ _ _ _ Hwf0 Hne Ea) as H1.
  assert (length (frames s1) = S addr) as Hlen1
    by (by rewrite (evolves_length _ _ _ H1)).
  assert (wellFormed (enterFrame addr s1)) as Hwf2.
  { exists addr. split; [done|]. simpl. lia. }
  pose proof (evaluate_evolves n _ _ _ _ Hwf2 Eb) as H3.
  assert (length (frames s3) = S addr) as Hlen3
    by (by rewrite (evolves_length _ _ _ H3)).
  assert (is_Some (frames s1 !! addr)) as [f1 Hf1]
    by (apply lookup_lt_is_Some; lia).
  assert (is_Some (frames s3 !! addr)) as [f3 Hf3]
    by (apply lookup_lt_is_Some; lia).
  assert (parent f3 = currentFrame s) as Hparent.
  { rewrite (evolves_parent _ _ _ H3 addr f1 f3 Hf1 Hf3).
    by rewrite (evolves_parent _ _ _ H1 addr _ f1 Hnew Hf1). }
  assert (take addr (frames s3) = take addr (frames s1)) as Htake.
  { apply list_eq. intros i. destruct (decide (i < addr)) as [Hi|Hi].
    - rewrite !lookup_take_lt by done.
      apply (evolves_frame _ _ _ H3). unfold current; simpl.
      intros [= ->]. lia.
    - by rewrite !lookup_take_ge by lia. }
  assert (evaluate program (S n) (BoundCallExpression sub actuals) s
          = Ok (result, {| frames := take addr (frames s3);
                           currentFrame := parent f3 |})) as Ecall.
  { simpl. unfold evaluateCall. fold addr. rewrite Hsub, Ea. simpl.
    rewrite Eb. simpl. unfold leaveFrame, frameAt. by rewrite Hf3. }
  exists {| frames := take addr (frames s3); currentFrame := parent f3 |}.
  split; [exact Ecall|]. split; [done|]. split; [done|].
  split; [simpl; rewrite length_take; lia|].
  split; [simpl; apply lookup_take_ge; lia|].
  by eapply evaluate_evolves.
Qed.

(** *** Conditions and statement lists *)

(** C8: [evaluateBool] gives false when the tree evaluates to Empty, and
    otherwise the collapse of the four-state truth of the integer, which
    is true for a strict 1 only: a truth of 0, X or Z gives false. *)
Theorem evaluateBool_truth n (tree : Node) s :
  evaluateBool program n tree s
  = match evaluate program n tree s with
    | Ok (Empty, s1) => Ok (false, s1)
    | Ok (Integer v, s1) => Ok (bool_decide (sv_to_logic v = L1), s1)
    | Abort f => Abort f
    | OutOfFuel => OutOfFuel
    end.
Proof.
  unfold evaluateBool.
  destruct (evaluate program n tree s) as [[[|v] s1]| |]; simpl; try done.
  by destruct (sv_to_logic v).
Qed.

(** C9: a statement list with at least one statement evaluates exactly as
    its first statement does, value, resulting state and failure alike;
    the statements after the first play no part. *)
Theorem evaluateStatementList_first n (item : Node) (rest : list Node) s :
  evaluate program (S n) (BoundStatementList (item :: rest)) s
  = evaluate program n item s.
Proof. done. Qed.

End Properties.

(** * The reference four-state integer *)

Section FourStateFacts.
Import FourState.

Lemma hasUnknown_cons (x : logic_t) (a : SVInt) :
  hasUnknown (x :: a) = isUnknown x || hasUnknown a.
Proof. done. Qed.

(** Two vectors of definite bits of one width with the same value are the
    same vector. *)
Lemma toZ_inj (a : SVInt) : ∀ b : SVInt,
  length a = length b → hasUnknown a = false → hasUnknown b = false →
  toZ a = toZ b → a = b.
Proof.
  induction a as [|x a IH]; intros [|y b] Hlen Ha Hb Hz; try done.
  rewrite hasUnknown_cons in Ha, Hb.
  apply orb_false_iff in Ha as [Hx Ha]. apply orb_false_iff in Hb as [Hy Hb].
  simpl in Hlen, Hz.
  destruct x, y; try discriminate; simpl in Hz;
    first [ f_equal; apply IH; auto; lia | exfalso; lia ].
Qed.

Lemma extend_definite w (a : SVInt) :
  hasUnknown a = false → hasUnknown (extend w a) = false.
Proof.
  intros Ha. unfold extend, hasUnknown in *. rewrite existsb_app, Ha. simpl.
  induction (w - length a) as [|k IH]; [done|]. done.
Qed.

Lemma toZ_extend w (a : SVInt) : toZ (extend w a) = toZ a.
Proof.
  unfold extend. induction a as [|x a IH]; simpl.
  - induction (w - 0) as [|k IH]; [done|]. simpl. lia.
  - simpl in IH. assert (∀ k, toZ (a ++ replicate k L0) = toZ a) as Hk.
    { clear. intros k. induction a as [|y a IH]; simpl.
      - induction k as [|k IH]; [done|]. simpl. lia.
      - by rewrite IH. }
    by rewrite Hk.
Qed.

Lemma length_extend (a b : SVInt) :
  length (extend (commonWidth a b) a) = length (extend (commonWidth a b) b).
Proof. unfold extend, commonWidth. rewrite !length_app, !length_replicate. lia. Qed.

(** On definite operands the tri-state comparison says what the exact
    match of the bit patterns says. *)
Lemma logicalEq_caseEq (a b : SVInt) :
  hasUnknown a = false → hasUnknown b = false →
  logicalEq a b = logic_of_bool (caseEq a b).
Proof.
  intros Ha Hb. unfold logicalEq, compare, caseEq. rewrite Ha, Hb. simpl.
  f_equal. destruct (Z.eqb_spec (toZ a) (toZ b)) as [Hz|Hz].
  - symmetry. apply bool_decide_eq_true. apply toZ_inj.
    + apply length_extend.
    + by apply extend_definite.
    + by apply extend_definite.
    + by rewrite !toZ_extend.
  - symmetry. apply bool_decide_eq_false. intros He. apply Hz.
    by rewrite <- (toZ_extend (commonWidth a b) a), He, toZ_extend.
Qed.

(** C7: on operands whose bits are all definite, the equality expression
    and the case equality expression evaluate alike; on a value with an
    unknown bit, compared with itself, logical equality gives the unknown
    bit X and case equality gives a definite 1. *)
Theorem equality_families program n (a b : SVInt) s :
  hasUnknown a = false → hasUnknown b = false →
  (evaluate program (S (S n))
     (BoundBinaryExpression EqualityExpression
        (BoundLiteral (Integer a)) (BoundLiteral (Integer b))) s
   = evaluate program (S (S n))
       (BoundBinaryExpression CaseEqualityExpression
          (BoundLiteral (Integer a)) (BoundLiteral (Integer b))) s)
  ∧ sv_eq a b = logic_of_bool (exactlyEqual a b)
  ∧ hasUnknown undefined = true
  ∧ evaluate program (S (S n))
      (BoundBinaryExpression EqualityExpression
         (BoundLiteral (Integer undefined)) (BoundLiteral (Integer undefined))) s
    = Ok (Integer [LX], s)
  ∧ evaluate program (S (S n))
      (BoundBinaryExpression CaseEqualityExpression
         (BoundLiteral (Integer undefined)) (BoundLiteral (Integer undefined))) s
    = Ok (Integer [L1], s).
Proof.
  intros Ha Hb. pose proof (logicalEq_caseEq a b Ha Hb) as H.
  split; [|split; [exact H|done]].
  simpl. unfold evaluateBinary. simpl. by rewrite H.
Qed.

(** [evaluateBool] on the reference integer: a value with an X or Z bit
    is a false condition. *)
Lemma evaluateBool_unknown program n (v : SVInt) s :
  hasUnknown v = true →
  evaluateBool program (S n) (BoundLiteral (Integer v)) s = Ok (false, s).
Proof.
  intros Hv. unfold evaluateBool. simpl. unfold toLogic. by rewrite Hv.
Qed.

End FourStateFacts.

(** * The properties at concrete inputs *)

Section Examples.
Import FourState.

Lemma wellFormed_initial : wellFormed root.
Proof. exists 0. split; [reflexivity|simpl; lia]. Defined.

Lemma wellFormed_bound x z : wellFormed (bound x z).
Proof. exists 0. split; [reflexivity|simpl; lia]. Defined.

(** [x = 5] with [x] bound: the assignment yields 5. *)
Example assign_five :
  evaluate ∅ 2 (BoundAssignmentExpression AssignmentExpression (var "x") (num 5))
    (bound "x" 3)
  = Ok (lit 5, bound "x" 5).
Proof. vm_compute. reflexivity. Qed.

(** [x += 4] with [x] bound to 3 yields 7 and leaves [x] bound to 7. *)
Example add_assign_seven :
  evaluate ∅ 2
    (BoundAssignmentExpression AddAssignmentExpression (var "x") (num 4))
    (bound "x" 3)
  = Ok (lit 7, bound "x" 7).
Proof. vm_compute. reflexivity. Qed.

(** [x += (x = 10)] with [x] bound to 3 yields 20: the left value is read
    after the right-hand side has stored 10. *)
Example add_assign_rereads :
  evaluate ∅ 3
    (BoundAssignmentExpression AddAssignmentExpression (var "x")
       (BoundAssignmentExpression AssignmentExpression (var "x") (num 10)))
    (bound "x" 3)
  = Ok (lit 20, bound "x" 20).
Proof. vm_compute. reflexivity. Qed.

(** [add(x += 1, x)] with [x] bound to 1: the second argument sees the
    store of the first; the call yields 4 and the caller keeps [x = 2]. *)
Example call_arguments_in_order :
  evaluate adder 6
    (BoundCallExpression "add"
       [BoundAssignmentExpression AddAssignmentExpression (var "x") (num 1);
        var "x"])
    (bound "x" 1)
  = Ok (lit 4, bound "x" 2).
Proof. vm_compute. reflexivity. Qed.

(** The claim of C1 fails: the unary plus of an invalid node does not
    evaluate to Empty, whatever the fuel. *)
Example invalid_operand_not_Empty :
  evaluate ∅ 1 (BoundBad None) root = Ok (Empty, root)
  ∧ ∀ n s', evaluate ∅ n
              (BoundUnaryExpression UnaryPlusExpression (BoundBad None))
              root
            ≠ Ok (Empty, s').
Proof.
  split; [reflexivity|]. intros [|[|n]] s'; simpl; discriminate.
Qed.

(** The claim of C2 fails as stated: the root frame has no slot for [x],
    and resolving [x] as an lvalue leaves a frame with one more entry. *)
Lemma evaluateLValue_changes_table :
  currentTemporaries root !! "x" = None
  ∧ evaluateLValue (var "x") root
    = Ok (Some {| storage := (0, "x") |},
          {| frames := [ {| temporaries := {[ "x" := Empty ]}; parent := None |} ];
             currentFrame := Some 0 |})
  ∧ ¬ (∀ (x : Symbol) (s s1 : ConstantEvaluator SVInt) r,
         currentTemporaries s !! x = None →
         evaluateLValue (var x) s = Ok (r, s1) →
         frames s1 = frames s).
Proof.
  assert (evaluateLValue (var "x") root
          = Ok (Some {| storage := (0, "x") |},
                {| frames := [ {| temporaries := {[ "x" := Empty ]};
                                  parent := None |} ];
                   currentFrame := Some 0 |})) as E
    by (vm_compute; reflexivity).
  split; [reflexivity|]. split; [exact E|].
  intros H. specialize (H "x" root _ _ eq_refl E).
  apply (f_equal (λ fs, (temporaries <$> fs !! 0) ≫= (.!! "x"))) in H.
  vm_compute in H. discriminate.
Qed.

Lemma evaluateLValue_binds_nothing_witness :
  wellFormed root
  ∧ ∃ c s1,
      currentFrame root = Some c
      ∧ evaluateLValue (var "x") root = Ok (Some {| storage := (c, "x") |}, s1)
      ∧ (∀ y, valueOf s1 y = valueOf root y)
      ∧ evolves (current root) root s1
      ∧ match currentTemporaries root !! "x" with
        | Some _ => s1 = root
        | None => currentTemporaries s1
                  = <["x" := Empty]> (currentTemporaries root)
        end.
Proof.
  split; [exact wellFormed_initial|].
  exact (evaluateLValue_binds_nothing "x" root wellFormed_initial).
Defined.

(** The claim of C3 fails as stated: in the root frame, where [x] has no
    binding, the right-hand side of [x = 5] evaluates to 5 and the
    assignment aborts at the variable read, whatever the fuel. *)
Lemma assignment_to_unbound_aborts :
  evaluate ∅ 1 (num 5) root = Ok (lit 5, root)
  ∧ ∀ n, evaluate ∅ (S (S n))
           (BoundAssignmentExpression AssignmentExpression (var "x") (num 5))
           root
         = Abort UnboundVariable.
Proof. split; [reflexivity|]. intros n. vm_compute. reflexivity. Qed.

(** With [x] bound, a right-hand side that evaluates to Empty is not
    stored either: the assignment aborts when it takes its integer. *)
Example assign_Empty_aborts :
  ∀ n, evaluate ∅ (S (S n))
         (BoundAssignmentExpression AssignmentExpression (var "x") (BoundBad None))
         (bound "x" 3)
       = Abort EmptyInteger.
Proof. intros n. vm_compute. reflexivity. Qed.

Lemma evaluateAssignment_plain_witness :
  wellFormed (bound "x" 3)
  ∧ isBound (bound "x" 3) "x" = true
  ∧ evaluate ∅ 1 (num 5) (bound "x" 3) = Ok (lit 5, bound "x" 3)
  ∧ evaluate ∅ 2
      (BoundAssignmentExpression AssignmentExpression (var "x") (num 5))
      (bound "x" 3)
    = Ok (lit 5, assign "x" (lit 5) (bound "x" 3))
  ∧ valueOf (assign "x" (lit 5) (bound "x" 3)) "x" = lit 5
  ∧ ∀ m, evaluate ∅ (S m) (var "x") (assign "x" (lit 5) (bound "x" 3))
         = Ok (lit 5, assign "x" (lit 5) (bound "x" 3)).
Proof.
  split; [exact (wellFormed_bound "x" 3)|].
  split; [reflexivity|]. split; [reflexivity|].
  exact (evaluateAssignment_plain ∅ 1 "x" (num 5) (bound "x" 3) (ofZ 32 5)
           (bound "x" 3) (wellFormed_bound "x" 3) eq_refl eq_refl).
Defined.


Lemma evaluateAssignment_reads_target_witness :
  wellFormed root
  ∧ evaluate ∅ 2
      (BoundAssignmentExpression AssignmentExpression (var "x") (num 5)) root
    = match evaluate ∅ 1 (num 5) (materialise "x" root) with
      | Ok _ => Abort UnboundVariable
      | Abort f => Abort f
      | OutOfFuel => OutOfFuel
      end.
Proof.
  split; [exact wellFormed_initial|].
  exact (proj1 (evaluateAssignment_reads_target ∅ 1 "x" (num 5) root
                  wellFormed_initial) eq_refl).
Defined.

Lemma bindArguments_adder :
  bindArguments (evaluate adder 4) 1 ["a"; "b"] 0 [num 3; num 4]
    (withNewFrame root)
  = Ok (adderBound ∅ 3 4).
Proof. vm_compute. reflexivity. Defined.

(** The argument loop of [add(x += 1, x)] from a root frame with [x = 1]:
    the first argument stores 2 in the caller's [x], the second reads it. *)
Lemma bindArguments_adder_effects :
  bindArguments (evaluate adder 4) 1 ["a"; "b"] 0
    [BoundAssignmentExpression AddAssignmentExpression (var "x") (num 1);
     var "x"]
    (withNewFrame (bound "x" 1))
  = Ok (adderBound {[ "x" := lit 2 ]} 2 2).
Proof. vm_compute. reflexivity. Defined.

Lemma evaluateCall_arguments_witness :
  wellFormed (bound "x" 1)
  ∧ currentFrame (bound "x" 1) = Some 0
  ∧ adder !! "add" = Some {| arguments := ["a"; "b"];
                             body := BoundStatementList
                               [BoundReturnStatement
                                  (BoundBinaryExpression AddExpression
                                     (var "a") (var "b"))] |}
  ∧ argumentsRun (evaluate adder 4) 0 1
      [BoundAssignmentExpression AddAssignmentExpression (var "x") (num 1);
       var "x"]
      ["a"; "b"] 0 (withNewFrame (bound "x" 1))
      (adderBound {[ "x" := lit 2 ]} 2 2)
  ∧ currentFrame (adderBound {[ "x" := lit 2 ]} 2 2) = Some 0
  ∧ currentFrame (enterFrame 1 (adderBound {[ "x" := lit 2 ]} 2 2)) = Some 1
  ∧ currentTemporaries (enterFrame 1 (adderBound {[ "x" := lit 2 ]} 2 2))
    = temporariesAt 1 (adderBound {[ "x" := lit 2 ]} 2 2).
Proof.
  split; [exact (wellFormed_bound "x" 1)|]. split; [reflexivity|].
  split; [reflexivity|].
  pose proof (evaluateCall_arguments adder 4 "add" _
                [BoundAssignmentExpression AddAssignmentExpression
                   (var "x") (num 1);
                 var "x"]
                (bound "x" 1) 0 (adderBound {[ "x" := lit 2 ]} 2 2)
                (wellFormed_bound "x" 1) eq_refl eq_refl
                bindArguments_adder_effects)
    as (Hrun & Hcur & _ & _ & Henter & _ & Htemps & _).
  split; [exact Hrun|]. split; [exact Hcur|]. split; [exact Henter|exact Htemps].
Defined.

Lemma evaluateCall_returns_witness :
  wellFormed root
  ∧ evaluate adder 4 (BoundStatementList
                        [BoundReturnStatement
                           (BoundBinaryExpression AddExpression
                              (var "a") (var "b"))])
      (enterFrame 1 (adderBound ∅ 3 4))
    = Ok (lit 7, enterFrame 1 (adderBound ∅ 3 4))
  ∧ ∃ s',
      evaluate adder 5 (BoundCallExpression "add" [num 3; num 4]) root
      = Ok (lit 7, s')
      ∧ currentFrame s' = currentFrame root
      ∧ frames s' = take 1 (frames (adderBound ∅ 3 4))
      ∧ length (frames s') = 1
      ∧ frames s' !! 1 = None
      ∧ evolves (current root) root s'.
Proof.
  split; [exact wellFormed_initial|].
  assert (evaluate adder 4 (BoundStatementList
                        [BoundReturnStatement
                           (BoundBinaryExpression AddExpression
                              (var "a") (var "b"))])
            (enterFrame 1 (adderBound ∅ 3 4))
          = Ok (lit 7, enterFrame 1 (adderBound ∅ 3 4))) as Eb
    by (vm_compute; reflexivity).
  split; [exact Eb|].
  exact (evaluateCall_returns adder 4 "add" _ [num 3; num 4] root
           (adderBound ∅ 3 4) (lit 7) (enterFrame 1 (adderBound ∅ 3 4))
           wellFormed_initial eq_refl bindArguments_adder Eb).
Defined.

Lemma equality_families_witness :
  hasUnknown (ofZ 4 5) = false ∧ hasUnknown (ofZ 4 6) = false
  ∧ sv_eq (ofZ 4 5) (ofZ 4 6) = logic_of_bool (exactlyEqual (ofZ 4 5) (ofZ 4 6))
  ∧ evaluate ∅ 2
      (BoundBinaryExpression EqualityExpression
         (BoundLiteral (Integer undefined)) (BoundLiteral (Integer undefined)))
      root
    = Ok (Integer [LX], root)
  ∧ evaluate ∅ 2
      (BoundBinaryExpression CaseEqualityExpression
         (BoundLiteral (Integer undefined)) (BoundLiteral (Integer undefined)))
      root
    = Ok (Integer [L1], root).
Proof.
  split; [reflexivity|]. split; [reflexivity|].
  pose proof (equality_families ∅ 0 (ofZ 4 5) (ofZ 4 6) root eq_refl eq_refl)
    as (_ & H1 & _ & H2 & H3).
  split; [exact H1|]. split; [exact H2|exact H3].
Defined.

End Examples.

(** * Further properties of the evaluator *)

Section Further.
Context {SVInt : Type} `{!SVIntOps SVInt}.
Variable program : gmap Symbol (SubroutineSymbol SVInt).

#[local] Abbreviation CV := (ConstantValue SVInt).
#[local] Abbreviation Node := (BoundNode SVInt).
#[local] Abbreviation CE := (ConstantEvaluator SVInt).

Implicit Types (s : CE) (x y key : Symbol) (a c addr : nat) (v : CV).

(** *** Temporaries *)

Lemma readSlot_materialise s c x :
  wellFormed s → currentFrame s = Some c →
  readSlot (c, x) (materialise x s) = Ok (valueOf s x).
Proof.
  intros (c' & f & Hc' & Hf)%wellFormed_frame Hc.
  assert (c' = c) as -> by congruence.
  rewrite (valueOf_lookup s c f) by done.
  unfold materialise. rewrite Hc, (temporariesAt_lookup c s f) by done.
  unfold readSlot, frameAt. cbn.
  destruct (temporaries f !! x) as [w|] eqn:Ex.
  - rewrite Hf. cbn. by rewrite Ex.
  - rewrite (lookup_setTemporaries_eq _ _ _ f Hf). cbn.
    by rewrite lookup_insert_eq.
Qed.

Lemma createTemporary_eq key s c :
  wellFormed s → currentFrame s = Some c →
  createTemporary key s
  = if isBound s key then Abort MultipleTemporaries
    else Ok (c, key, materialise key s).
Proof.
  intros Hwf Hc. unfold createTemporary.
  rewrite (subscript_materialise s c key) by done. cbn.
  rewrite readSlot_materialise by done. cbn. reflexivity.
Qed.

Lemma wellFormed_assign s x v : wellFormed s → wellFormed (assign x v s).
Proof.
  intros (c & Hc & Hlt). exists c. unfold assign. rewrite Hc.
  split; [done|]. by rewrite length_setTemporaries.
Qed.

Lemma writeSlot_assign s c x v :
  wellFormed s → currentFrame s = Some c →
  writeSlot (c, x) v s = Ok (assign x v s).
Proof.
  intros (c' & f & Hc' & Hf)%wellFormed_frame Hc.
  assert (c' = c) as -> by congruence.
  unfold writeSlot, frameAt, assign. cbn.
  by rewrite Hf, Hc, (temporariesAt_lookup c s f).
Qed.

Lemma valueOf_assign_ne s x y v :
  wellFormed s → x ≠ y → valueOf (assign x v s) y = valueOf s y.
Proof.
  intros (c & f & Hc & Hf)%wellFormed_frame Hne. unfold assign. rewrite Hc.
  rewrite (valueOf_setTemporaries s c f), (valueOf_lookup s c f) by done.
  by rewrite lookup_insert_ne, (temporariesAt_lookup c s f).
Qed.

(** X1: from a state whose frame pointer is live, [createTemporary] fails
    its assertion exactly when the key holds a value in the current frame;
    otherwise it returns the slot of the key in the current frame and
    leaves every symbol reading as before, the frame pointer, the parent
    links and the other frames untouched. *)
Theorem createTemporary_outcome key s c :
  wellFormed s → currentFrame s = Some c →
  createTemporary key s
  = (if isBound s key then Abort MultipleTemporaries
     else Ok (c, key, materialise key s))
  ∧ (∀ y, valueOf (materialise key s) y = valueOf s y)
  ∧ evolves (current s) s (materialise key s).
Proof.
  intros Hwf Hc. split; [by apply createTemporary_eq|].
  split; [intros y; by apply materialise_valueOf|by apply materialise_evolves].
Qed.

(** X2: a temporary that was created and assigned an integer through the
    returned reference reads back as that integer, every other symbol reads
    as before, and creating the same temporary again fails the assertion;
    as long as nothing was assigned, creating it again succeeds. *)
Theorem createTemporary_round_trip n key s (i : SVInt) r s1 :
  wellFormed s → createTemporary key s = Ok (r, s1) →
  createTemporary key s1 = Ok (r, s1)
  ∧ ∃ s2,
      writeSlot r (Integer i) s1 = Ok s2
      ∧ evaluate program (S n) (BoundVariable key) s2 = Ok (Integer i, s2)
      ∧ (∀ y, key ≠ y → valueOf s2 y = valueOf s y)
      ∧ createTemporary key s2 = Abort MultipleTemporaries.
Proof.
  intros Hwf H. pose proof Hwf as (c & Hc & Hlt).
  rewrite (createTemporary_eq key s c) in H by done.
  destruct (isBound s key) eqn:Hb; [discriminate|].
  inversion H; subst r s1; clear H.
  pose proof (materialise_evolves s key Hwf) as H0.
  pose proof (evolves_wellFormed _ _ _ H0 Hwf) as Hwf1.
  assert (currentFrame (materialise key s) = Some c) as Hc1
    by (by rewrite (evolves_current _ _ _ H0)).
  split.
  { rewrite (createTemporary_eq key _ c) by done.
    rewrite (evolves_bound _ _ _ H0), Hb.
    assert (materialise key (materialise key s) = materialise key s) as ->; [|done].
    destruct (wellFormed_frame _ Hwf1) as (c' & f1 & Hc' & Hf1).
    pose proof (readSlot_materialise s c key Hwf Hc) as Hr.
    apply readSlot_Ok in Hr as (g & Hg & Hv). cbn in Hg, Hv.
    unfold materialise at 1. rewrite Hc1, (temporariesAt_lookup c _ g Hg).
    by rewrite Hv. }
  exists (assign key (Integer i) (materialise key s)).
  split; [by apply writeSlot_assign|].
  pose proof (wellFormed_assign _ key (Integer i) Hwf1) as Hwf2.
  pose proof (valueOf_assign _ key (Integer i) Hwf1) as Hv.
  split; [rewrite evaluate_variable; by apply evaluateVariable_bound|].
  split.
  - intros y Hne. rewrite valueOf_assign_ne by done.
    by apply materialise_valueOf.
  - assert (currentFrame (assign key (Integer i) (materialise key s)) = Some c)
      as Hc2 by (unfold assign; by rewrite Hc1).
    rewrite (createTemporary_eq key _ c) by done.
    unfold isBound. by rewrite Hv.
Qed.

(** *** Variables *)

(** X3: a variable evaluates to the integer that the current frame holds
    for its symbol and leaves the evaluator as it was; a symbol without a
    slot, or with a slot that holds no value, fails the assertion of the
    read.  A variable never evaluates to Empty. *)
Theorem evaluateVariable_reads n x s :
  wellFormed s →
  evaluate program (S n) (BoundVariable x) s
  = match valueOf s x with
    | Integer i => Ok (Integer i, s)
    | Empty => Abort UnboundVariable
    end.
Proof.
  intros Hwf. rewrite evaluate_variable.
  destruct (valueOf s x) as [|i] eqn:Ex.
  - apply evaluateVariable_unbound; [done|]. unfold isBound. by rewrite Ex.
  - by apply evaluateVariable_bound.
Qed.

(** *** Invariants of every evaluation *)

(** X4: a successful evaluation returns with the call stack as it found
    it: the frame pointer is the same and still live, as many frames are
    live, every frame has the parent it had, and every frame but the
    current one holds exactly what it held. *)
Theorem evaluate_keeps_frames n (tree : Node) s v s' :
  wellFormed s → evaluate program n tree s = Ok (v, s') →
  wellFormed s'
  ∧ currentFrame s' = currentFrame s
  ∧ length (frames s') = length (frames s)
  ∧ (∀ a, parent <$> frames s' !! a = parent <$> frames s !! a)
  ∧ (∀ a, currentFrame s ≠ Some a → frames s' !! a = frames s !! a).
Proof.
  intros Hwf H. pose proof (evaluate_evolves program n _ _ _ _ Hwf H) as He.
  split; [by eapply evolves_wellFormed|].
  split; [apply (evolves_current _ _ _ He)|].
  split; [apply (evolves_length _ _ _ He)|].
  split; [|apply (evolves_frame _ _ _ He)].
  intros a. destruct (frames s !! a) as [f|] eqn:Hf.
  - assert (is_Some (frames s' !! a)) as [f' Hf'].
    { apply lookup_lt_is_Some. rewrite (evolves_length _ _ _ He).
      by eapply lookup_lt_Some. }
    rewrite Hf'. simpl. f_equal. by eapply (evolves_parent _ _ _ He).
  - apply lookup_ge_None in Hf. rewrite <- (evolves_length _ _ _ He) in Hf.
    apply lookup_ge_None in Hf. by rewrite Hf.
Qed.

(** X5: no evaluation declares or drops a variable of the frame it runs
    in: after a successful evaluation the current frame holds a value for
    exactly the symbols for which it held one before. *)
Theorem evaluate_keeps_bound_symbols n (tree : Node) s v s' x :
  wellFormed s → evaluate program n tree s = Ok (v, s') →
  isBound s' x = isBound s x.
Proof.
  intros Hwf H.
  apply (evolves_bound _ _ _ (evaluate_evolves program n _ _ _ _ Hwf H)).
Qed.

(** X6: an evaluation looks at the current frame only.  Replacing the
    temporaries of any other live frame changes neither the value nor the
    failure, and the resulting state differs by that replacement alone; so
    the variables of a caller are neither visible to nor changed by what
    runs in another frame. *)
Theorem evaluate_current_frame_only n (tree : Node) s a m :
  wellFormed s → currentFrame s ≠ Some a → a < length (frames s) →
  evaluate program n tree (setTemporaries a m s)
  = onState (setTemporaries a m) (evaluate program n tree s).
Proof. apply evaluate_ignores. Qed.

(** *** Trees without variables *)

Section StateFree.
Variable ev : Node → CE → Result (CV * CE).
Hypothesis ev_free : ∀ tree s t,
  stateFree tree = true → ev tree s = onState (λ _, s) (ev tree t).

Lemma dispatch_stateFree tree s t :
  stateFree tree = true →
  dispatch program ev tree s = onState (λ _, s) (dispatch program ev tree t).
Proof.
  intros Hfree. destruct tree as [| | | |kind e|kind l r| | |items|e|];
    simpl in *; try done.
  - unfold evaluateUnary. rewrite (ev_free e s t) by done.
    destruct (ev e t) as [[[|i] t1]| |]; simpl; try done. by destruct kind.
  - apply andb_prop in Hfree as [Hl Hr].
    unfold evaluateBinary. rewrite (ev_free l s t) by done.
    destruct (ev l t) as [[[|i] t1]| |]; simpl; try done.
    rewrite (ev_free r s t1) by done.
    destruct (ev r t1) as [[[|j] t2]| |]; simpl; try done. by destruct kind.
  - destruct items as [|item rest]; simpl; [done|]. by apply ev_free.
  - by apply ev_free.
Qed.
End StateFree.

(** X7: a tree built from literals, parameters, invalid nodes, operators,
    return statements and statement lists evaluates to the same value, or
    fails the same way, from every state, and returns the state it was
    given: such a tree neither reads nor writes a frame. *)
Theorem evaluate_stateFree n : ∀ (tree : Node) s t,
  stateFree tree = true →
  evaluate program n tree s = onState (λ _, s) (evaluate program n tree t).
Proof.
  induction n as [|n IH]; intros tree s t Hfree; [done|].
  simpl. by apply dispatch_stateFree.
Qed.

(** *** Assignment targets and kinds *)

(** X8: the target of an assignment has to be a variable node.  With any
    other target, an invalid node included, the assignment aborts at the
    unreachable arm of the lvalue resolver before the right-hand side is
    looked at; an assignment that does yield a value yields an integer and
    leaves its variable holding it, so no assignment evaluates to Empty. *)
Theorem evaluateAssignment_target n kind (lhs rhs : Node) s :
  wellFormed s →
  ((∀ x, lhs ≠ BoundVariable x) →
     evaluate program (S n) (BoundAssignmentExpression kind lhs rhs) s
     = Abort DefaultUnreachable)
  ∧ (∀ v s',
       evaluate program (S n) (BoundAssignmentExpression kind lhs rhs) s
       = Ok (v, s') →
       ∃ x (i : SVInt),
         lhs = BoundVariable x ∧ v = Integer i ∧ valueOf s' x = Integer i).
Proof.
  intros Hwf. split.
  - intros Hnv. destruct lhs as [| | |x| | | | | | |]; try done.
    by destruct (Hnv x).
  - intros v s' H. destruct lhs as [| | |x| | | | | | |]; try discriminate.
    rewrite evaluateAssignment_steps in H by done.
    pose proof (materialise_evolves s x Hwf) as H0.
    pose proof (evolves_wellFormed _ _ _ H0 Hwf) as Hwf0.
    destruct (evaluate program n rhs (materialise x s))
      as [[rvalue s1]| |] eqn:Er; try discriminate.
    pose proof (evaluate_evolves program n _ _ _ _ Hwf0 Er) as H1.
    pose proof (evolves_wellFormed _ _ _ H1 Hwf0) as Hwf1.
    destruct (valueOf s1 x) as [|l]; [discriminate|].
    destruct rvalue as [|r]; [discriminate|].
    destruct (assignedValue kind (Integer r) l r) as [w|] eqn:Ew;
      [|discriminate].
    inversion H; subst v s'; clear H.
    destruct (cv_bool_true w (assignedValue_bound _ _ _ _ Ew)) as [i ->].
    exists x, i. split; [done|]. split; [done|]. by apply valueOf_assign.
Qed.

(** X9: an assignment of a kind that is neither the plain one nor one of
    the eight compound ones, the shift assignments among them, never yields
    a value or a state.  It reaches the unreachable arm of the switch last:
    the right-hand side is evaluated first, in the state in which the
    target has been resolved, and its failure is the failure of the
    assignment; then the target is read, and an unbound target fails the
    assertion of the read; then an Empty right-hand side fails when its
    integer is taken; only with a bound target and an integer right-hand
    side does the assignment abort at the unreachable arm. *)
Theorem evaluateAssignment_unsupported_kind n kind x rhs s :
  kind ≠ AssignmentExpression → compoundOperator kind = None →
  wellFormed s →
  evaluate program (S n) (BoundAssignmentExpression kind (BoundVariable x) rhs) s
  = match evaluate program n rhs (materialise x s) with
    | Ok (rvalue, s1) =>
        match valueOf s1 x with
        | Empty => Abort UnboundVariable
        | Integer _ =>
            match rvalue with
            | Empty => Abort EmptyInteger
            | Integer _ => Abort DefaultUnreachable
            end
        end
    | Abort f => Abort f
    | OutOfFuel => OutOfFuel
    end
  ∧ (∀ (r : SVInt) s1,
       isBound s x = true → evaluate program n rhs s = Ok (Integer r, s1) →
       evaluate program (S n)
         (BoundAssignmentExpression kind (BoundVariable x) rhs) s
       = Abort DefaultUnreachable)
  ∧ (∀ v s',
       evaluate program (S n)
         (BoundAssignmentExpression kind (BoundVariable x) rhs) s
       ≠ Ok (v, s')).
Proof.
  intros Hplain Hop Hwf.
  assert (∀ rvalue (l r : SVInt), assignedValue kind rvalue l r = None) as Hnone
    by (intros; by destruct kind).
  assert (evaluate program (S n)
            (BoundAssignmentExpression kind (BoundVariable x) rhs) s
          = match evaluate program n rhs (materialise x s) with
            | Ok (rvalue, s1) =>
                match valueOf s1 x with
                | Empty => Abort UnboundVariable
                | Integer _ =>
                    match rvalue with
                    | Empty => Abort EmptyInteger
                    | Integer _ => Abort DefaultUnreachable
                    end
                end
            | Abort f => Abort f
            | OutOfFuel => OutOfFuel
            end) as Heq.
  { rewrite evaluateAssignment_steps by done.
    destruct (evaluate program n rhs (materialise x s))
      as [[rvalue s1]| |]; try done.
    destruct (valueOf s1 x) as [|l]; [done|].
    destruct rvalue as [|r]; [done|]. by rewrite Hnone. }
  split; [exact Heq|]. split.
  - intros r s1 Hb Er. rewrite Heq, (materialise_bound s x Hb), Er.
    pose proof (evaluate_evolves program n _ _ _ _ Hwf Er) as H1.
    destruct (isBound_Integer s1 x) as [l Hl];
      [by rewrite (evolves_bound _ _ _ H1)|].
    by rewrite Hl.
  - intros v s'. rewrite Heq.
    destruct (evaluate program n rhs (materialise x s))
      as [[rvalue s1]| |]; try done.
    destruct (valueOf s1 x); [done|]. by destruct rvalue.
Qed.

(** *** The arguments of a call *)

Lemma bindArguments_app ev addr formals (extra : list Node) : ∀ i actuals s,
  i + length formals ≤ length actuals →
  bindArguments ev addr formals i (actuals ++ extra) s
  = bindArguments ev addr formals i actuals s.
Proof.
  induction formals as [|formal rest IH]; intros i actuals s Hlen; simpl in *;
    [done|].
  rewrite lookup_app_l by lia.
  destruct (actuals !! i) as [actual|]; [|done].
  destruct (ev actual s) as [[v s1]| |]; simpl; try done.
  destruct (writeSlot (addr, formal) v s1) as [s2| |]; simpl; try done.
  apply IH. lia.
Qed.

(** X10: a call evaluates one argument expression for each formal parameter
    of its subroutine and no more: argument expressions beyond the number of
    formal parameters are never evaluated, so the call has the same outcome
    with and without them. *)
Theorem evaluateCall_surplus_arguments n sub sr (actuals extra : list Node) s :
  program !! sub = Some sr → length (arguments sr) ≤ length actuals →
  evaluate program (S n) (BoundCallExpression sub (actuals ++ extra)) s
  = evaluate program (S n) (BoundCallExpression sub actuals) s.
Proof.
  intros Hsub Hlen. simpl. unfold evaluateCall. rewrite Hsub.
  by rewrite bindArguments_app.
Qed.

Lemma temporariesAt_setTemporaries a m s :
  a < length (frames s) → temporariesAt a (setTemporaries a m s) = m.
Proof.
  intros [f Hf]%lookup_lt_is_Some. unfold temporariesAt.
  by rewrite (lookup_setTemporaries_eq _ _ _ f Hf).
Qed.

Lemma bindArguments_dom n addr formals : ∀ i actuals s s1,
  wellFormed s → currentFrame s ≠ Some addr → addr < length (frames s) →
  bindArguments (evaluate program n) addr formals i actuals s = Ok s1 →
  dom (temporariesAt addr s1)
  = dom (temporariesAt addr s) ∪ list_to_set formals.
Proof.
  induction formals as [|formal rest IH];
    intros i actuals s s1 Hwf Hne Hlt H; simpl in H.
  - inversion H; subst. simpl. by rewrite (right_id_L ∅ (∪)).
  - destruct (actuals !! i) as [actual|]; [|discriminate].
    unbind H as [v t] E. unbind H as t' Ew.
    pose proof (evaluate_evolves program n _ _ _ _ Hwf E) as H1.
    apply writeSlot_Ok in Ew as (f & Hf & ->). cbn in *.
    assert (temporariesAt addr s = temporaries f) as Hsame.
    { unfold temporariesAt.
      rewrite <- (evolves_frame _ _ _ H1 addr) by done. by rewrite Hf. }
    assert (addr < length (frames t)) as Hlt'
      by (by rewrite (evolves_length _ _ _ H1)).
    rewrite (IH _ _ _ _
               (wellFormed_setTemporaries _ _ _
                  (evolves_wellFormed _ _ _ H1 Hwf))
               ltac:(change (currentFrame t ≠ Some addr);
                     by rewrite (evolves_current _ _ _ H1))
               ltac:(by rewrite length_setTemporaries) H).
    rewrite temporariesAt_setTemporaries by done.
    rewrite dom_insert_L, Hsame. simpl.
    by rewrite (comm_L (∪) {[formal]} (dom (temporaries f))), (assoc_L (∪)).
Qed.

(** X11: when the argument loop of a call is done, the new frame has a slot
    for each formal parameter of the subroutine and for nothing else: the
    frame in which the body runs starts with the formal parameters alone,
    none of the caller's variables. *)
Theorem evaluateCall_binds_formals n formals (actuals : list Node) s s1 :
  wellFormed s →
  bindArguments (evaluate program n) (length (frames s)) formals 0 actuals
    (withNewFrame s) = Ok s1 →
  dom (currentTemporaries (enterFrame (length (frames s)) s1))
  = list_to_set formals.
Proof.
  intros Hwf H. pose proof Hwf as (c & Hc & Hlt).
  destruct (withNewFrame_facts s c Hc Hlt) as (Hwf0 & Hne & Hlen & Hnew).
  change (currentTemporaries (enterFrame (length (frames s)) s1))
    with (temporariesAt (length (frames s)) s1).
  rewrite (bindArguments_dom _ _ _ _ _ _ _ Hwf0 Hne ltac:(lia) H).
  rewrite (temporariesAt_lookup _ _ _ Hnew). simpl.
  by rewrite dom_empty_L, (left_id_L ∅ (∪)).
Qed.

Lemma bindArguments_other_slots n addr x formals : ∀ i actuals s s1,
  wellFormed s → currentFrame s ≠ Some addr → addr < length (frames s) →
  bindArguments (evaluate program n) addr formals i actuals s = Ok s1 →
  x ∉ formals →
  temporariesAt addr s1 !! x = temporariesAt addr s !! x.
Proof.
  induction formals as [|formal rest IH];
    intros i actuals s s1 Hwf Hne Hlt H Hx; simpl in H.
  - by inversion H.
  - destruct (actuals !! i) as [actual|]; [|discriminate].
    unbind H as [v t] E. unbind H as t' Ew.
    pose proof (evaluate_evolves program n _ _ _ _ Hwf E) as H1.
    apply writeSlot_Ok in Ew as (f & Hf & ->). cbn in *.
    apply not_elem_of_cons in Hx as [Hxf Hx].
    assert (addr < length (frames t)) as Hlt'
      by (by rewrite (evolves_length _ _ _ H1)).
    rewrite (IH _ _ _ _
               (wellFormed_setTemporaries _ _ _
                  (evolves_wellFormed _ _ _ H1 Hwf))
               ltac:(change (currentFrame t ≠ Some addr);
                     by rewrite (evolves_current _ _ _ H1))
               ltac:(by rewrite length_setTemporaries) H Hx).
    rewrite temporariesAt_setTemporaries by done.
    rewrite lookup_insert_ne by done.
    unfold temporariesAt.
    by rewrite <- (evolves_frame _ _ _ H1 addr), Hf.
Qed.

(** The loop over a list of formals is the loop over a first part of the
    list followed by the loop over the rest. *)
Lemma bindArguments_split (ev : Node → CE → Result (CV * CE)) addr pre post :
  ∀ i actuals s,
    bindArguments ev addr (pre ++ post) i actuals s
    = (do t <- bindArguments ev addr pre i actuals s;
       bindArguments ev addr post (i + length pre) actuals t).
Proof.
  induction pre as [|formal pre IH]; intros i actuals s; simpl.
  - by rewrite Nat.add_0_r.
  - destruct (actuals !! i) as [actual|]; [|done].
    destruct (ev actual s) as [[v s1]| |]; simpl; try done.
    destruct (writeSlot (addr, formal) v s1) as [s2| |]; simpl; try done.
    by rewrite IH, Nat.add_succ_comm.
Qed.

(** X14: parameter passing.  When the formal parameters of a subroutine are
    pairwise distinct and the argument loop of a call is done, the formal
    parameter at position [k] reads, in the frame of the body, as the value
    that the argument expression at position [k] evaluated to in this run
    of the loop: in the state [t] that the loop reached when it had bound
    the [k] parameters before it, in which the caller's frame is the
    current one.  The value is stored as it is, Empty included. *)
Theorem evaluateCall_passes_arguments n formals (actuals : list Node) s s1
    k formal :
  wellFormed s → NoDup formals →
  bindArguments (evaluate program n) (length (frames s)) formals 0 actuals
    (withNewFrame s) = Ok s1 →
  formals !! k = Some formal →
  ∃ actual t t',
    actuals !! k = Some actual
    ∧ bindArguments (evaluate program n) (length (frames s)) (take k formals) 0
        actuals (withNewFrame s) = Ok t
    ∧ currentFrame t = currentFrame s
    ∧ evaluate program n actual t
      = Ok (valueOf (enterFrame (length (frames s)) s1) formal, t').
Proof.
  intros Hwf Hnd H Hk. pose proof Hwf as (c & Hc & Hlt).
  destruct (withNewFrame_facts s c Hc Hlt) as (Hwf0 & Hne & Hlen & Hnew).
  set (addr := length (frames s)) in *.
  pose proof (take_drop_middle formals k formal Hk) as Hsplit.
  assert (length (take k formals) = k) as Hk'.
  { apply length_take_le. apply lookup_lt_Some in Hk. lia. }
  rewrite <- Hsplit in H, Hnd.
  rewrite bindArguments_split in H. unbind H as t Et.
  rewrite Hk' in H. simpl in H.
  destruct (actuals !! k) as [actual|] eqn:Ea; [|discriminate].
  unbind H as [v t'] E. unbind H as t'' Ew.
  pose proof (bindArguments_evolves _ (evaluate_evolves program n)
                _ _ _ _ _ _ Hwf0 Hne Et) as H0.
  assert (wellFormed t) as Hwft
    by (eapply evolves_wellFormed; [exact H0|exact Hwf0]).
  assert (currentFrame t = currentFrame s) as Hct
    by (by rewrite (evolves_current _ _ _ H0)).
  assert (currentFrame t ≠ Some addr) as Hnet
    by (by rewrite (evolves_current _ _ _ H0)).
  pose proof (evaluate_evolves program n _ _ _ _ Hwft E) as H1.
  assert (addr < length (frames t')) as Hlt'.
  { rewrite (evolves_length _ _ _ H1), (evolves_length _ _ _ H0), Hlen. lia. }
  apply writeSlot_Ok in Ew as (f & Hf & ->). cbn in *.
  apply NoDup_app in Hnd as (_ & _ & Hnd).
  apply NoDup_cons in Hnd as [Hfresh _].
  exists actual, t, t'. split; [done|]. split; [done|]. split; [done|].
  rewrite E. f_equal. f_equal. unfold valueOf.
  change (currentTemporaries (enterFrame addr s1))
    with (temporariesAt addr s1).
  rewrite (bindArguments_other_slots n addr formal _ _ _ _ _
             (wellFormed_setTemporaries _ _ _
                (evolves_wellFormed _ _ _ H1 Hwft))
             ltac:(change (currentFrame t' ≠ Some addr);
                   by rewrite (evolves_current _ _ _ H1))
             ltac:(by rewrite length_setTemporaries) H Hfresh).
  rewrite temporariesAt_setTemporaries by done.
  by rewrite lookup_insert_eq.
Qed.

(** *** Complementary operators *)

(** X12: the reduction operators come in pairs.  Whatever the operand
    expression, when the reduction AND, OR or XOR of it evaluates to a
    value, that value is the one-bit integer of some bit, and the NAND, NOR
    or XNOR of the same expression from the same state evaluates to the
    one-bit integer of the complement of that bit, with the same resulting
    state. *)
Theorem evaluateUnary_reduction_pairs n base negated (operand : Node) s v s' :
  (base, negated) ∈ [ (UnaryBitwiseAndExpression, UnaryBitwiseNandExpression);
                      (UnaryBitwiseOrExpression, UnaryBitwiseNorExpression);
                      (UnaryBitwiseXorExpression, UnaryBitwiseXnorExpression) ] →
  evaluate program (S n) (BoundUnaryExpression base operand) s = Ok (v, s') →
  ∃ b : logic_t,
    v = Integer (sv_of_logic b)
    ∧ evaluate program (S n) (BoundUnaryExpression negated operand) s
      = Ok (Integer (sv_of_logic (logic_not b)), s').
Proof.
  intros Hpair H. simpl in *. unfold evaluateUnary in *.
  unbind H as [cv s1] E. unbind H as i Ei. apply integer_Ok in Ei as ->.
  rewrite E. simpl.
  repeat (apply elem_of_cons in Hpair as [[= -> ->]|Hpair];
          [inversion H; subst; eauto|]).
  by apply elem_of_nil in Hpair.
Qed.

(** X13: case equality and case inequality always give a definite bit, and
    complementary ones: whatever the operand expressions, when the case
    equality of two expressions evaluates to a value, that value is the
    one-bit integer of a host boolean, and the case inequality of the same
    expressions from the same state evaluates to the one-bit integer of its
    negation, with the same resulting state. *)
Theorem evaluateBinary_case_equality_pair n (lhs rhs : Node) s v s' :
  evaluate program (S n) (BoundBinaryExpression CaseEqualityExpression lhs rhs) s
  = Ok (v, s') →
  ∃ b : bool,
    v = Integer (sv_of_logic (logic_of_bool b))
    ∧ evaluate program (S n)
        (BoundBinaryExpression CaseInequalityExpression lhs rhs) s
      = Ok (Integer (sv_of_logic (logic_of_bool (negb b))), s').
Proof.
  intros H. simpl in *. unfold evaluateBinary in *.
  unbind H as [lcv s1] El. unbind H as l Eli. apply integer_Ok in Eli as ->.
  unbind H as [rcv s2] Er. unbind H as r Eri. apply integer_Ok in Eri as ->.
  rewrite El. simpl. rewrite Er. simpl.
  inversion H; subst. eauto.
Qed.

End Further.

(** * The further properties at concrete inputs *)

Section FurtherExamples.
Import FourState.

Lemma wellFormed_entered : wellFormed (enterFrame 1 (adderBound ∅ 3 4)).
Proof. exists 1. split; [reflexivity|simpl; lia]. Defined.

Lemma call_adder :
  evaluate adder 5 (BoundCallExpression "add" [num 3; num 4]) root
  = Ok (lit 7, root).
Proof. vm_compute. reflexivity. Defined.

Lemma createTemporary_outcome_witness :
  wellFormed root ∧ currentFrame root = Some 0
  ∧ createTemporary "x" root
    = (if isBound root "x" then Abort MultipleTemporaries
       else Ok (0, "x", materialise "x" root))
  ∧ (∀ y, valueOf (materialise "x" root) y = valueOf root y)
  ∧ evolves (current root) root (materialise "x" root).
Proof.
  split; [exact wellFormed_initial|]. split; [reflexivity|].
  exact (createTemporary_outcome "x" root 0 wellFormed_initial eq_refl).
Defined.

Lemma createTemporary_round_trip_witness :
  wellFormed root
  ∧ createTemporary "x" root = Ok (0, "x", materialise "x" root)
  ∧ createTemporary "x" (materialise "x" root)
    = Ok (0, "x", materialise "x" root)
  ∧ ∃ s2,
      writeSlot (0, "x") (lit 5) (materialise "x" root) = Ok s2
      ∧ evaluate ∅ 1 (var "x") s2 = Ok (lit 5, s2)
      ∧ (∀ y, "x" ≠ y → valueOf s2 y = valueOf root y)
      ∧ createTemporary "x" s2 = Abort MultipleTemporaries.
Proof.
  split; [exact wellFormed_initial|]. split; [reflexivity|].
  exact (createTemporary_round_trip ∅ 0 "x" root (ofZ 32 5) (0, "x")
           (materialise "x" root) wellFormed_initial eq_refl).
Defined.

Lemma evaluateVariable_reads_witness :
  wellFormed (bound "x" 3)
  ∧ evaluate ∅ 1 (var "x") (bound "x" 3)
    = match valueOf (bound "x" 3) "x" with
      | Integer i => Ok (Integer i, bound "x" 3)
      | Empty => Abort UnboundVariable
      end.
Proof.
  split; [exact (wellFormed_bound "x" 3)|].
  exact (evaluateVariable_reads ∅ 0 "x" (bound "x" 3) (wellFormed_bound "x" 3)).
Defined.

Lemma evaluate_keeps_frames_witness :
  wellFormed root
  ∧ evaluate adder 5 (BoundCallExpression "add" [num 3; num 4]) root
    = Ok (lit 7, root)
  ∧ currentFrame root = currentFrame root
  ∧ length (frames root) = 1.
Proof.
  split; [exact wellFormed_initial|]. split; [exact call_adder|].
  pose proof (evaluate_keeps_frames adder 5 _ root (lit 7) root
                wellFormed_initial call_adder) as (_ & Hc & Hl & _).
  split; [exact Hc|exact Hl].
Defined.

Lemma evaluate_keeps_bound_symbols_witness :
  wellFormed (bound "x" 3)
  ∧ evaluate ∅ 2
      (BoundAssignmentExpression AddAssignmentExpression (var "x") (num 4))
      (bound "x" 3)
    = Ok (lit 7, bound "x" 7)
  ∧ isBound (bound "x" 7) "y" = isBound (bound "x" 3) "y".
Proof.
  assert (evaluate ∅ 2
            (BoundAssignmentExpression AddAssignmentExpression (var "x") (num 4))
            (bound "x" 3)
          = Ok (lit 7, bound "x" 7)) as E by (vm_compute; reflexivity).
  split; [exact (wellFormed_bound "x" 3)|]. split; [exact E|].
  exact (evaluate_keeps_bound_symbols ∅ 2 _ (bound "x" 3) (lit 7) (bound "x" 7)
           "y" (wellFormed_bound "x" 3) E).
Defined.

Lemma evaluate_current_frame_only_witness :
  wellFormed (enterFrame 1 (adderBound ∅ 3 4))
  ∧ currentFrame (enterFrame 1 (adderBound ∅ 3 4)) ≠ Some 0
  ∧ 0 < length (frames (enterFrame 1 (adderBound ∅ 3 4)))
  ∧ evaluate adder 1 (var "x")
      (setTemporaries 0 {[ "x" := lit 1 ]} (enterFrame 1 (adderBound ∅ 3 4)))
    = onState (setTemporaries 0 {[ "x" := lit 1 ]})
        (evaluate adder 1 (var "x") (enterFrame 1 (adderBound ∅ 3 4))).
Proof.
  assert (currentFrame (enterFrame 1 (adderBound ∅ 3 4)) ≠ Some 0) as Hne
    by (simpl; discriminate).
  assert (0 < length (frames (enterFrame 1 (adderBound ∅ 3 4)))) as Hlt
    by (simpl; lia).
  split; [exact wellFormed_entered|]. split; [exact Hne|]. split; [exact Hlt|].
  exact (evaluate_current_frame_only adder 1 (var "x") _ 0 {[ "x" := lit 1 ]}
           wellFormed_entered Hne Hlt).
Defined.

Lemma evaluate_stateFree_witness :
  stateFree (BoundBinaryExpression AddExpression (num 1) (num 2)) = true
  ∧ evaluate ∅ 2 (BoundBinaryExpression AddExpression (num 1) (num 2)) root
    = onState (λ _, root)
        (evaluate ∅ 2 (BoundBinaryExpression AddExpression (num 1) (num 2))
           (bound "x" 3)).
Proof.
  split; [reflexivity|].
  exact (evaluate_stateFree ∅ 2
           (BoundBinaryExpression AddExpression (num 1) (num 2))
           root (bound "x" 3) eq_refl).
Defined.

Lemma evaluateAssignment_target_witness :
  wellFormed root
  ∧ (∀ x, num 1 ≠ BoundVariable x)
  ∧ evaluate ∅ 1 (BoundAssignmentExpression AssignmentExpression (num 1) (num 2))
      root
    = Abort DefaultUnreachable.
Proof.
  assert (∀ x, num 1 ≠ BoundVariable x) as Hnv by (intros x; discriminate).
  split; [exact wellFormed_initial|]. split; [exact Hnv|].
  exact (proj1 (evaluateAssignment_target ∅ 0 AssignmentExpression (num 1)
                  (num 2) root wellFormed_initial) Hnv).
Defined.

Lemma evaluateAssignment_unsupported_kind_witness :
  LogicalLeftShiftAssignmentExpression ≠ AssignmentExpression
  ∧ compoundOperator LogicalLeftShiftAssignmentExpression = None
  ∧ wellFormed (bound "x" 3) ∧ isBound (bound "x" 3) "x" = true
  ∧ evaluate ∅ 1 (num 1) (bound "x" 3) = Ok (lit 1, bound "x" 3)
  ∧ evaluate ∅ 2
      (BoundAssignmentExpression LogicalLeftShiftAssignmentExpression
         (var "x") (num 1))
      (bound "x" 3)
    = Abort DefaultUnreachable
  ∧ ∀ v s',
      evaluate ∅ 2
        (BoundAssignmentExpression LogicalLeftShiftAssignmentExpression
           (var "x") (num 1))
        (bound "x" 3)
      ≠ Ok (v, s').
Proof.
  assert (LogicalLeftShiftAssignmentExpression ≠ AssignmentExpression) as Hk
    by discriminate.
  split; [exact Hk|]. split; [reflexivity|].
  split; [exact (wellFormed_bound "x" 3)|].
  split; [reflexivity|]. split; [reflexivity|].
  pose proof (evaluateAssignment_unsupported_kind ∅ 1
                LogicalLeftShiftAssignmentExpression "x" (num 1) (bound "x" 3)
                Hk eq_refl (wellFormed_bound "x" 3)) as (_ & Habort & Hnever).
  split; [|exact Hnever].
  exact (Habort (ofZ 32 1) (bound "x" 3) eq_refl eq_refl).
Defined.

Lemma evaluateCall_surplus_arguments_witness :
  adder !! "add"
  = Some {| arguments := ["a"; "b"];
            body := BoundStatementList
                      [BoundReturnStatement
                         (BoundBinaryExpression AddExpression
                            (var "a") (var "b"))] |}
  ∧ evaluate adder 5
      (BoundCallExpression "add" ([num 3; num 4] ++ [var "unbound"])) root
    = evaluate adder 5 (BoundCallExpression "add" [num 3; num 4]) root.
Proof.
  split; [reflexivity|].
  refine (evaluateCall_surplus_arguments adder 4 "add" _ [num 3; num 4]
            [var "unbound"] root eq_refl _).
  simpl. lia.
Defined.

Lemma evaluateCall_binds_formals_witness :
  wellFormed root
  ∧ dom (currentTemporaries (enterFrame 1 (adderBound ∅ 3 4)))
    = list_to_set ["a"; "b"].
Proof.
  split; [exact wellFormed_initial|].
  exact (evaluateCall_binds_formals adder 4 ["a"; "b"] [num 3; num 4] root
           (adderBound ∅ 3 4) wellFormed_initial bindArguments_adder).
Defined.

Lemma evaluateUnary_reduction_pairs_witness :
  evaluate ∅ 2
    (BoundUnaryExpression UnaryBitwiseAndExpression
       (BoundLiteral (Integer [L1; L1]))) root
  = Ok (Integer [L1], root)
  ∧ ∃ b : logic_t,
      Integer [L1] = Integer (sv_of_logic b)
      ∧ evaluate ∅ 2
          (BoundUnaryExpression UnaryBitwiseNandExpression
             (BoundLiteral (Integer [L1; L1]))) root
        = Ok (Integer (sv_of_logic (logic_not b)), root).
Proof.
  split; [reflexivity|].
  refine (evaluateUnary_reduction_pairs ∅ 1 UnaryBitwiseAndExpression
            UnaryBitwiseNandExpression (BoundLiteral (Integer [L1; L1])) root
            (Integer [L1]) root _ eq_refl).
  apply list_elem_of_here.
Defined.

Lemma evaluateBinary_case_equality_pair_witness :
  evaluate ∅ 2 (BoundBinaryExpression CaseEqualityExpression (num 1) (num 2))
    root
  = Ok (Integer [L0], root)
  ∧ ∃ b : bool,
      Integer [L0] = Integer (sv_of_logic (logic_of_bool b))
      ∧ evaluate ∅ 2
          (BoundBinaryExpression CaseInequalityExpression (num 1) (num 2)) root
        = Ok (Integer (sv_of_logic (logic_of_bool (negb b))), root).
Proof.
  assert (evaluate ∅ 2
            (BoundBinaryExpression CaseEqualityExpression (num 1) (num 2)) root
          = Ok (Integer [L0], root)) as E by (vm_compute; reflexivity).
  split; [exact E|].
  exact (evaluateBinary_case_equality_pair ∅ 1 (num 1) (num 2) root
           (Integer [L0]) root E).
Defined.

Lemma evaluateCall_passes_arguments_witness :
  wellFormed (bound "x" 1) ∧ NoDup ["a"; "b"]
  ∧ ∃ actual t t',
      [BoundAssignmentExpression AddAssignmentExpression (var "x") (num 1);
       var "x"] !! 1 = Some actual
      ∧ bindArguments (evaluate adder 4) 1 (take 1 ["a"; "b"]) 0
          [BoundAssignmentExpression AddAssignmentExpression (var "x") (num 1);
           var "x"]
          (withNewFrame (bound "x" 1)) = Ok t
      ∧ currentFrame t = currentFrame (bound "x" 1)
      ∧ evaluate adder 4 actual t
        = Ok (valueOf (enterFrame 1 (adderBound {[ "x" := lit 2 ]} 2 2)) "b",
              t').
Proof.
  assert (NoDup ["a"; "b"]) as Hnd.
  { apply NoDup_cons. split.
    - intros Hin. apply list_elem_of_singleton in Hin. discriminate.
    - apply NoDup_singleton. }
  split; [exact (wellFormed_bound "x" 1)|]. split; [exact Hnd|].
  exact (evaluateCall_passes_arguments adder 4 ["a"; "b"]
           [BoundAssignmentExpression AddAssignmentExpression (var "x") (num 1);
            var "x"]
           (bound "x" 1) (adderBound {[ "x" := lit 2 ]} 2 2) 1 "b"
           (wellFormed_bound "x" 1) Hnd bindArguments_adder_effects eq_refl).
Defined.

End FurtherExamples.
